(** * Classical ciphers: Playfair, Rail Fence, Substitution

    A shallow embedding of [CSC314_2023_Fall_PorsheEismann_PlayfairCypher.py]
    and the properties its specification states about it.

    Python values are modelled as follows.
    - A [str] is a [list ascii], read as a string of Latin-1 characters
      (the code points 0 to 255); a one-character string is an [ascii].
      [isalpha], [isupper] and [lower] are Python's on every such
      character.  [upper] is Python's on every such character but U+00B5
      and U+00FF, whose uppercase forms are no Latin-1 characters and which
      are left as they are.  What depends on the case of characters is
      stated for ASCII text ([is_ascii]), where the functions are Python's
      whatever characters a string may hold besides.
    - An [int] is a [Z]; a value that may be [None] is an [option].
    - A call either returns a value or raises: [result A] is [OK a] or
      [Raise e], where [e] names the exception class.
    - A [for] loop threading local variables is [for_each] over the
      iterated sequence, stopping at the first [Raise]. *)

From Stdlib Require Import List Ascii String ZArith Lia Bool Arith.
From Stdlib Require Import Permutation Sorted.
Import ListNotations.

Local Open Scope Z_scope.

(** ** Python core *)

Module Py.

(** An exception is identified by the name of its class. *)
Inductive exn : Type :=
| PyExc (cls : string).

Definition ValueError : exn := PyExc "ValueError".
Definition TypeError : exn := PyExc "TypeError".
Definition IndexError : exn := PyExc "IndexError".

Inductive result (A : Type) : Type :=
| OK (a : A)
| Raise (e : exn).

Arguments OK {A} a.
Arguments Raise {A} e.

Definition bind {A B : Type} (m : result A) (k : A -> result B) : result B :=
  match m with
  | OK a => k a
  | Raise e => Raise e
  end.

Abbreviation str := (list ascii).

(** A string literal. *)
Definition lit (s : string) : str := list_ascii_of_string s.

Definition len {A : Type} (l : list A) : Z := Z.of_nat (List.length l).

(** [for x in l: body], with the loop's variables as the state. *)
Fixpoint for_each {A S : Type} (body : S -> A -> result S)
         (l : list A) (s : S) : result S :=
  match l with
  | [] => OK s
  | x :: l' => bind (body s x) (for_each body l')
  end.

(** [[f(x) for x in l]] where [f] may raise. *)
Fixpoint map_result {A B : Type} (f : A -> result B) (l : list A)
  : result (list B) :=
  match l with
  | [] => OK []
  | x :: l' =>
      bind (f x) (fun y => bind (map_result f l') (fun ys => OK (y :: ys)))
  end.

(** [range(n)] and [range(start, stop, step)] for a positive [step]. *)
Definition range (n : Z) : list Z :=
  map Z.of_nat (seq 0 (Z.to_nat n)).

Definition range3 (start stop step : Z) : list Z :=
  map (fun k => start + step * Z.of_nat k)
      (seq 0 (Z.to_nat ((stop - start + step - 1) / step))).

(** [enumerate(l)]. *)
Definition enumerate {A : Type} (l : list A) : list (Z * A) :=
  combine (range (len l)) l.

(** Subscripting [l[i]]: a negative index counts from the end, an index
    out of range raises [IndexError]. *)
Definition norm_index (n i : Z) : option nat :=
  let j := if i <? 0 then i + n else i in
  if (j <? 0) || (n <=? j) then None else Some (Z.to_nat j).

Definition getitem {A : Type} (l : list A) (i : Z) : result A :=
  match norm_index (len l) i with
  | None => Raise IndexError
  | Some j =>
      match nth_error l j with
      | Some x => OK x
      | None => Raise IndexError
      end
  end.

Fixpoint list_set {A : Type} (l : list A) (j : nat) (v : A) : list A :=
  match l, j with
  | [], _ => []
  | _ :: l', O => v :: l'
  | x :: l', S j' => x :: list_set l' j' v
  end.

(** Item assignment [l[i] = v]. *)
Definition setitem {A : Type} (l : list A) (i : Z) (v : A)
  : result (list A) :=
  match norm_index (len l) i with
  | None => Raise IndexError
  | Some j => OK (list_set l j v)
  end.

(** Subscripting with a value that may be [None]: [l[None]] raises
    [TypeError]. *)
Definition subscript {A : Type} (l : list A) (i : option Z) : result A :=
  match i with
  | None => Raise TypeError
  | Some z => getitem l z
  end.

(** The slice [s[i:j]] for [0 <= i <= j], the only form the program uses. *)
Definition slice {A : Type} (s : list A) (i j : Z) : list A :=
  firstn (Z.to_nat (j - i)) (skipn (Z.to_nat i) s).

(** Characters, by code point. *)
Definition code (c : ascii) : nat := nat_of_ascii c.

Definition is_ascii (c : ascii) : bool := (code c <? 128)%nat.

(** The ASCII letters: ['a'] to ['z'], ['A'] to ['Z']. *)
Definition is_lower (c : ascii) : bool :=
  ((97 <=? code c) && (code c <=? 122))%nat.

Definition is_upper (c : ascii) : bool :=
  ((65 <=? code c) && (code c <=? 90))%nat.

Definition is_letter (c : ascii) : bool := is_lower c || is_upper c.

(** The other Latin-1 letters that have two cases, 32 apart: U+00C0 to
    U+00DE without the sign U+00D7, U+00E0 to U+00FE without U+00F7. *)
Definition is_upper_latin (c : ascii) : bool :=
  ((192 <=? code c) && (code c <=? 222) && negb (code c =? 215))%nat.

Definition is_lower_latin (c : ascii) : bool :=
  ((224 <=? code c) && (code c <=? 254) && negb (code c =? 247))%nat.

(** [c.isalpha()]: the letters above, the ordinal indicators U+00AA and
    U+00BA, the micro sign U+00B5, and U+00DF, U+00FF. *)
Definition isalpha (c : ascii) : bool :=
  is_letter c || is_upper_latin c || is_lower_latin c
  || (code c =? 170)%nat || (code c =? 181)%nat || (code c =? 186)%nat
  || (code c =? 223)%nat || (code c =? 255)%nat.

(** [c.isupper()]. *)
Definition isupper (c : ascii) : bool := is_upper c || is_upper_latin c.

Definition upper_char (c : ascii) : ascii :=
  if is_lower c || is_lower_latin c then ascii_of_nat (code c - 32) else c.

(** [c.upper()], a string: U+00DF becomes ["SS"]. *)
Definition upper_str (c : ascii) : str :=
  if (code c =? 223)%nat then lit "SS" else [upper_char c].

Definition lower_char (c : ascii) : ascii :=
  if is_upper c || is_upper_latin c then ascii_of_nat (code c + 32) else c.

(** [s.upper()] and [s.lower()]. *)
Definition upper (s : str) : str := flat_map upper_str s.
Definition lower (s : str) : str := map lower_char s.

(** [x in s] for a one-character [x]. *)
Definition contains (x : ascii) (s : str) : bool :=
  existsb (Ascii.eqb x) s.

(** [s.index(x)] for a one-character [x]: the first position of [x],
    [ValueError] when there is none. *)
Fixpoint index (x : ascii) (s : str) : result Z :=
  match s with
  | [] => Raise ValueError
  | c :: s' =>
      if Ascii.eqb c x then OK 0
      else bind (index x s') (fun i => OK (i + 1))
  end.

(** [s.replace(x, "")] for a one-character [x]. *)
Definition remove_char (x : ascii) (s : str) : str :=
  filter (fun c => negb (Ascii.eqb c x)) s.

(** [s == t] on strings. *)
Fixpoint str_eqb (s t : str) : bool :=
  match s, t with
  | [], [] => true
  | c :: s', d :: t' => Ascii.eqb c d && str_eqb s' t'
  | _, _ => false
  end.

(** [set(s)]: the distinct characters of [s].  Python fixes no iteration
    order for a set; [set_of] is one enumeration, and
    [sorted_by_order_irrelevant] below shows that the program's use of it,
    sorting by pairwise distinct keys, does not depend on the choice. *)
Definition set_of (s : str) : list ascii := nodup ascii_dec s.

(** [sorted(l, key=f)]: the keys are computed first, element by element
    (a raising key aborts the call), then the elements are sorted by key,
    stably. *)
Fixpoint insert_by {A : Type} (k : Z) (x : A) (l : list (Z * A))
  : list (Z * A) :=
  match l with
  | [] => [(k, x)]
  | (k', y) :: l' =>
      if k <=? k' then (k, x) :: l else (k', y) :: insert_by k x l'
  end.

Definition sort_keyed {A : Type} (l : list (Z * A)) : list (Z * A) :=
  fold_right (fun kx acc => insert_by (fst kx) (snd kx) acc) [] l.

Definition sorted_by {A : Type} (f : A -> result Z) (l : list A)
  : result (list A) :=
  bind (map_result f l)
       (fun keys => OK (map snd (sort_keyed (combine keys l)))).

End Py.

Import Py.

Declare Scope py_scope.
Delimit Scope py_scope with py.
Notation "x <- m ;; k" := (bind m (fun x => k))
  (at level 61, m at next level, right associativity) : py_scope.
Local Open Scope py_scope.

(** ** Playfair *)

Module PlayfairCipher.

Record t : Type := mk {
  key : str;
  key_matrix : list str;
  alphabet : str
}.

(** [__init__]: the key is the distinct characters of [key.upper()], sorted
    by their position in [key.lower()]; the matrix is the key cut into rows
    of five. *)
Definition init (key0 : str) : result t :=
  sorted_key <- sorted_by (fun x => index x (lower key0)) (set_of (upper key0)) ;;
  OK {| key := sorted_key;
        key_matrix :=
          map (fun i => slice sorted_key i (i + 5))
              (range3 0 (len sorted_key) 5);
        alphabet := lit "ABCDEFGHIKLMNOPQRSTUVWXYZ" |}.

(** [find_positions]: the loop over [enumerate(self.key_matrix)] returns at
    the first row holding [char]; [(None, None)] when no row does. *)
Fixpoint find_in_rows (rows : list (Z * str)) (char : ascii)
  : result (option Z * option Z) :=
  match rows with
  | [] => OK (None, None)
  | (row_idx, row) :: rest =>
      if contains char row
      then col <- index char row ;; OK (Some row_idx, Some col)
      else find_in_rows rest char
  end.

Definition find_positions (self : t) (char : ascii)
  : result (option Z * option Z) :=
  find_in_rows (enumerate (key_matrix self)) char.

(** [process_text]: [''.join([c.upper() for c in text if c.isalpha()])],
    then an ['X'] when the length is odd. *)
Definition process_text (text : str) : str :=
  let text1 :=
    List.concat (flat_map (fun c => if isalpha c then [upper [c]] else []) text) in
  if len text1 mod 2 =? 1 then text1 ++ lit "X" else text1.

(** [(v + 1) % 5] on a position that may be [None]. *)
Definition succ_mod5 (v : option Z) : result (option Z) :=
  match v with
  | None => Raise TypeError
  | Some z => OK (Some ((z + 1) mod 5))
  end.

(** [a == b] on positions that may be [None]. *)
Definition pos_eqb (a b : option Z) : bool :=
  match a, b with
  | None, None => true
  | Some x, Some y => x =? y
  | _, _ => false
  end.

(** [self.key_matrix[row][col]]. *)
Definition cell (self : t) (row col : option Z) : result ascii :=
  r <- subscript (key_matrix self) row ;;
  subscript r col.

(** The body of the loop of [transform] once the two characters are read. *)
Definition pair_step (self : t) (mode : str) (result0 : str)
           (char1 char2 : ascii) : result str :=
  p1 <- find_positions self char1 ;;
  p2 <- find_positions self char2 ;;
  let '(row1, col1) := p1 in
  let '(row2, col2) := p2 in
  p <- (if pos_eqb row1 row2 then
          c1 <- succ_mod5 col1 ;; c2 <- succ_mod5 col2 ;;
          OK (row1, c1, row2, c2)
        else if pos_eqb col1 col2 then
          r1 <- succ_mod5 row1 ;; r2 <- succ_mod5 row2 ;;
          OK (r1, col1, r2, col2)
        else OK (row1, col2, row2, col1)) ;;
  let '(row1, col1, row2, col2) := p in
  if str_eqb mode (lit "encrypt") then
    a <- cell self row1 col1 ;; b <- cell self row2 col2 ;;
    OK (result0 ++ [a] ++ [b])
  else
    a <- cell self row1 col1 ;; b <- cell self row2 col2 ;;
    OK (result0 ++ [a] ++ [b]).

Definition transform_body (self : t) (mode : str) (text : str)
           (result0 : str) (i : Z) : result str :=
  char1 <- getitem text i ;;
  char2 <- getitem text (i + 1) ;;
  pair_step self mode result0 char1 char2.

(** The loop of [transform] over the processed text. *)
Definition transform_loop (self : t) (mode : str) (text : str) : result str :=
  for_each (transform_body self mode text) (range3 0 (len text) 2) [].

Definition transform (self : t) (text mode : str) : result str :=
  let text := process_text text in
  transform_loop self mode text.

End PlayfairCipher.

(** ** Rail Fence *)

Module RailFence.

Record t : Type := mk { rails : Z }.

Definition init (rails0 : Z) : t := {| rails := rails0 |}.

(** [[[' ' for _ in text] for _ in range(self.rails)]]. *)
Definition blank_fence (self : t) (text : str) : list (list ascii) :=
  map (fun _ => map (fun _ => " "%char) text) (range (rails self)).

(** [rail += direction] and the turn at the first and the last rail. *)
Definition advance (self : t) (rail direction : Z) : Z * Z :=
  let rail := rail + direction in
  let direction :=
    if (rail =? rails self - 1) || (rail =? 0)
    then direction * -1 else direction in
  (rail, direction).

(** [fence[rail][i] = v]: the row object [fence[rail]] is updated in place. *)
Definition fence_set (fence : list (list ascii)) (rail i : Z) (v : ascii)
  : result (list (list ascii)) :=
  row <- getitem fence rail ;;
  row' <- setitem row i v ;;
  setitem fence rail row'.

Definition encrypt_body (self : t) (plaintext : str)
           (st : list (list ascii) * Z * Z) (char : ascii)
  : result (list (list ascii) * Z * Z) :=
  let '(fence, rail, direction) := st in
  row <- getitem fence rail ;;
  fence <- fence_set fence rail (len row - len plaintext) char ;;
  let '(rail, direction) := advance self rail direction in
  OK (fence, rail, direction).

Definition encrypt (self : t) (plaintext : str) : result str :=
  st <- for_each (encrypt_body self plaintext) plaintext
                 (blank_fence self plaintext, 0, 1) ;;
  let '(fence, _, _) := st in
  OK (List.concat (map (fun row => row) fence)).

Definition decrypt_body (self : t)
           (st : list (list ascii) * Z * Z * str) (_ : Z)
  : result (list (list ascii) * Z * Z * str) :=
  let '(fence, rail, direction, plaintext) := st in
  row <- getitem fence rail ;;
  c <- getitem row 0 ;;
  let plaintext := plaintext ++ [c] in
  let '(rail, direction) := advance self rail direction in
  fence <- fence_set fence rail 0 " "%char ;;
  OK (fence, rail, direction, plaintext).

Definition decrypt (self : t) (ciphertext : str) : result str :=
  let fence := blank_fence self ciphertext in
  row0 <- getitem fence 0 ;;
  st <- for_each (decrypt_body self) (range (len row0)) (fence, 0, 1, []) ;;
  let '(_, _, _, plaintext) := st in
  OK plaintext.

End RailFence.

(** ** Substitution *)

Module Substitution.

Record t : Type := mk {
  alphabet : str;
  key : str
}.

(** [__init__]: the distinct characters of the lowercased password without
    its spaces, sorted by first position, then the letters of the alphabet
    that are not in [password]. *)
Definition init (password : str) : result t :=
  let alphabet0 := lit "abcdefghijklmnopqrstuvwxyz" in
  head <- sorted_by (fun x => index x (lower password))
                    (set_of (remove_char " " (lower password))) ;;
  OK {| alphabet := alphabet0;
        key := head ++ flat_map (fun ch => if negb (contains ch password)
                                           then [ch] else []) alphabet0 |}.

Definition transform_body (self : t) (result0 : str) (ch : ascii)
  : result str :=
  if contains ch (alphabet self) then
    i <- index ch (alphabet self) ;;
    k <- getitem (key self) i ;;
    OK (result0 ++ [k])
  else OK (result0 ++ [ch]).

Definition transform (self : t) (text mode : str) : result str :=
  for_each (transform_body self) text [].

End Substitution.

(** ** Reference objects and specification-side definitions *)

(** A cipher object with a full five by five matrix. *)
Definition pf_demo : PlayfairCipher.t :=
  let k := lit "PLAYFIREXMBCDGHKNOQSTUVWZ" in
  {| PlayfairCipher.key := k;
     PlayfairCipher.key_matrix :=
       map (fun i => slice k i (i + 5)) (range3 0 (len k) 5);
     PlayfairCipher.alphabet := lit "ABCDEFGHIKLMNOPQRSTUVWXYZ" |}.

(** A substitution object whose key is the alphabet itself. *)
Definition sb_demo : Substitution.t :=
  {| Substitution.alphabet := lit "abcdefghijklmnopqrstuvwxyz";
     Substitution.key := lit "abcdefghijklmnopqrstuvwxyz" |}.

(** [process_text] as the specification words it: strip the non-alphabetic
    characters, uppercase the rest, append ['X'] when the length is odd. *)
Definition process_text_spec (text : str) : str :=
  let kept := upper (filter isalpha text) in
  if Nat.odd (List.length kept) then kept ++ ["X"%char] else kept.

(** ** The Playfair loop, pair by pair *)

(** The loop of [transform] read off the text two characters at a time; a
    last character without a partner is the failing subscript [text[i + 1]].
    [transform_loop_pairs] shows this is what the indexed loop computes. *)
Fixpoint pairs_loop (self : PlayfairCipher.t) (mode : str) (text : str)
         (result0 : str) : result str :=
  match text with
  | [] => OK result0
  | char1 :: text1 =>
      match text1 with
      | [] => Raise IndexError
      | char2 :: text2 =>
          bind (PlayfairCipher.pair_step self mode result0 char1 char2)
               (pairs_loop self mode text2)
      end
  end.

(** The number of iterations of the loop. *)
Fixpoint pairs_count (text : str) : nat :=
  match text with
  | [] => O
  | _ :: text1 =>
      match text1 with
      | [] => 1%nat
      | _ :: text2 => S (pairs_count text2)
      end
  end.

(** A character that no row of the key matrix holds. *)
Definition absent (self : PlayfairCipher.t) (c : ascii) : Prop :=
  forall row, In row (PlayfairCipher.key_matrix self) -> ~ In c row.

(** ** Keys of [sorted] *)

(** The order of [sorted]: by key. *)
Definition key_le {A : Type} (a b : Z * A) : Prop := fst a <= fst b.

(** The key of an element whose key function returned. *)
Definition key_of {A : Type} (f : A -> result Z) (x : A) : Z :=
  match f x with
  | OK k => k
  | Raise _ => 0
  end.

(** ** Invariants of the Rail Fence loops *)

(** The walk stays on the fence: going down from rail 0, going up from the
    last rail. *)
Definition on_fence (R rail direction : Z) : Prop :=
  0 <= rail <= R - 1 /\
  (direction = 1 \/ direction = -1) /\
  (rail = 0 -> direction = 1) /\
  (rail = R - 1 -> direction = -1).

(** The fence as both loops first build it: [R] rows of [N] spaces. *)
Definition blank (R : Z) (N : nat) : list (list ascii) :=
  repeat (repeat " "%char N) (Z.to_nat R).

(** A fence of [R] rows of [N] cells. *)
Definition fence_shape (R N : nat) (fence : list (list ascii)) : Prop :=
  List.length fence = R /\ Forall (fun row => List.length row = N) fence.

(** ** The command line *)

Definition AttributeError : exn := PyExc "AttributeError".
Definition NameError : exn := PyExc "NameError".

Module Main.

(** The object bound to [cipher]: an instance of one of the three classes. *)
Inductive cipher : Type :=
| Playfair (c : PlayfairCipher.t)
| Rail (c : RailFence.t)
| Subst (c : Substitution.t).

(** [cipher.transform(text, mode)]: the method is looked up in the class of
    the object; the class [RailFence] defines [encrypt] and [decrypt] and no
    [transform]. *)
Definition call_transform (c : cipher) (text mode : str) : result str :=
  match c with
  | Playfair c => PlayfairCipher.transform c text mode
  | Rail _ => Raise AttributeError
  | Subst c => Substitution.transform c text mode
  end.

(** The body of the script on the arguments [parse_args] returned; the
    value is what [print] writes.  [RailFence()] takes the default of two
    rails.  When no branch of the [if] binds [cipher], reading it raises
    [NameError]. *)
Definition main (algorithm key text mode : str) : result str :=
  cipher0 <-
    (if str_eqb algorithm (lit "Playfair") then
       c <- PlayfairCipher.init key ;; OK (Some (Playfair c))
     else if str_eqb algorithm (lit "RailFence") then
       OK (Some (Rail (RailFence.init 2)))
     else if str_eqb algorithm (lit "Substitution") then
       c <- Substitution.init key ;; OK (Some (Subst c))
     else OK None) ;;
  match cipher0 with
  | None => Raise NameError
  | Some c =>
      result0 <- call_transform c text mode ;;
      OK (result0 ++ ["010"%char])
  end.

End Main.

(** ** Notions used in the statements *)

(** [a] first appears in [s] before [b] does. *)
Definition first_before (s : str) (a b : ascii) : Prop :=
  exists p q, index a s = OK p /\ index b s = OK q /\ p < q.

(** A key matrix of five rows of five cells. *)
Definition matrix_5x5 (self : PlayfairCipher.t) : Prop :=
  List.length (PlayfairCipher.key_matrix self) = 5%nat /\
  Forall (fun row => List.length row = 5%nat) (PlayfairCipher.key_matrix self).

(** A character that some row of the key matrix holds. *)
Definition present (self : PlayfairCipher.t) (c : ascii) : Prop :=
  exists row, In row (PlayfairCipher.key_matrix self) /\ In c row.

(** A rail of the fence with [h] in its first cell and spaces after it. *)
Definition block (N : nat) (h : ascii) : list ascii :=
  h :: repeat " "%char (N - 1).

(** What [Substitution.transform] puts in the place of [ch]. *)
Definition substitute (self : Substitution.t) (ch : ascii) : ascii :=
  if contains ch (Substitution.alphabet self) then
    match index ch (Substitution.alphabet self) with
    | OK i =>
        match getitem (Substitution.key self) i with
        | OK k => k
        | Raise _ => ch
        end
    | Raise _ => ch
    end
  else ch.

(** ** Facts about the Python core *)

Lemma bind_OK {A B : Type} (m : result A) (k : A -> result B) (b : B) :
  bind m k = OK b -> exists a, m = OK a /\ k a = OK b.
Proof.
  destruct m as [a | e]; simpl; intros H; [eauto | discriminate].
Qed.

Lemma for_each_ext {A S : Type} (f g : S -> A -> result S) (l : list A) :
  (forall s x, In x l -> f s x = g s x) ->
  forall s, for_each f l s = for_each g l s.
Proof.
  induction l as [| x l IH]; intros Hfg s; simpl; [reflexivity |].
  rewrite Hfg by (left; reflexivity).
  destruct (g s x) as [s' | e]; simpl; [| reflexivity].
  apply IH. intros s0 y Hy. apply Hfg. right; exact Hy.
Qed.

Lemma for_each_app {A S : Type} (f : S -> A -> result S) (l1 l2 : list A) :
  forall s, for_each f (l1 ++ l2) s = bind (for_each f l1 s) (for_each f l2).
Proof.
  induction l1 as [| x l1 IH]; intros s; simpl; [reflexivity |].
  destruct (f s x) as [s' | e]; simpl; [apply IH | reflexivity].
Qed.

Lemma len_nil {A : Type} : len (@nil A) = 0.
Proof. reflexivity. Qed.

Lemma len_cons {A : Type} (x : A) (l : list A) : len (x :: l) = len l + 1.
Proof. unfold len; simpl List.length; lia. Qed.

Lemma len_app {A : Type} (l1 l2 : list A) : len (l1 ++ l2) = len l1 + len l2.
Proof. unfold len; rewrite length_app; lia. Qed.

Lemma len_nonneg {A : Type} (l : list A) : 0 <= len l.
Proof. unfold len; lia. Qed.

Lemma norm_index_in (n i : Z) :
  0 <= i < n -> norm_index n i = Some (Z.to_nat i).
Proof.
  intros H. unfold norm_index.
  destruct (i <? 0) eqn:E; [apply Z.ltb_lt in E; lia |].
  rewrite E.
  destruct (n <=? i) eqn:E'; [apply Z.leb_le in E'; lia | reflexivity].
Qed.

Lemma norm_index_out (n i : Z) :
  0 <= n <= i -> norm_index n i = None.
Proof.
  intros H. unfold norm_index.
  destruct (i <? 0) eqn:E; [apply Z.ltb_lt in E; lia |].
  rewrite E.
  destruct (n <=? i) eqn:E'; [reflexivity | apply Z.leb_gt in E'; lia].
Qed.

Lemma getitem_head {A : Type} (x : A) (l : list A) : getitem (x :: l) 0 = OK x.
Proof.
  unfold getitem. rewrite norm_index_in; [reflexivity |].
  rewrite len_cons. pose proof (len_nonneg l). lia.
Qed.

Lemma getitem_nth {A : Type} (l : list A) (i : Z) (x : A) :
  0 <= i -> nth_error l (Z.to_nat i) = Some x -> getitem l i = OK x.
Proof.
  intros Hi Hn. unfold getitem.
  assert (Hlt : (Z.to_nat i < List.length l)%nat)
    by (apply nth_error_Some; congruence).
  rewrite norm_index_in by (unfold len; lia).
  rewrite Hn. reflexivity.
Qed.

Lemma getitem_out {A : Type} (l : list A) (i : Z) :
  len l <= i -> getitem l i = Raise IndexError.
Proof.
  intros Hi. unfold getitem. pose proof (len_nonneg l).
  rewrite norm_index_out by lia. reflexivity.
Qed.

(** ** Playfair: [process_text] *)

Lemma upper_char_is_upper (c : ascii) :
  is_letter c = true -> is_upper (upper_char c) = true.
Proof.
  destruct c as [[] [] [] [] [] [] [] []]; vm_compute; intros H;
    solve [reflexivity | discriminate].
Qed.

Lemma letter_upper_str (c : ascii) :
  is_letter c = true -> upper_str c = [upper_char c].
Proof.
  destruct c as [[] [] [] [] [] [] [] []]; vm_compute; intros H;
    solve [reflexivity | discriminate].
Qed.

(** On an ASCII character [isalpha] is the test for a letter. *)
Lemma ascii_isalpha (c : ascii) :
  is_ascii c = true -> isalpha c = is_letter c.
Proof.
  destruct c as [[] [] [] [] [] [] [] []]; vm_compute; intros H;
    solve [reflexivity | discriminate].
Qed.

Lemma upper_cons (c : ascii) (s : str) : upper (c :: s) = upper_str c ++ upper s.
Proof. reflexivity. Qed.

Lemma comprehension_filter_map (text : str) :
  List.concat (flat_map (fun c => if isalpha c then [upper [c]] else []) text)
  = upper (filter isalpha text).
Proof.
  induction text as [| c text IH]; [reflexivity |].
  cbn [flat_map filter]. destruct (isalpha c).
  - cbn [app List.concat]. rewrite IH, upper_cons.
    unfold upper at 1. cbn [flat_map]. rewrite app_nil_r. reflexivity.
  - exact IH.
Qed.

Lemma odd_test (l : str) : (len l mod 2 =? 1) = Nat.odd (List.length l).
Proof.
  unfold len.
  destruct (Nat.odd (List.length l)) eqn:E.
  - apply Nat.odd_spec in E. destruct E as [k Hk]. rewrite Hk.
    apply Z.eqb_eq.
    replace (Z.of_nat (2 * k + 1)) with (1 + Z.of_nat k * 2) by lia.
    rewrite Z_mod_plus_full. reflexivity.
  - assert (Ev : Nat.even (List.length l) = true)
      by (rewrite <- Nat.negb_odd, E; reflexivity).
    apply Nat.even_spec in Ev. destruct Ev as [k Hk]. rewrite Hk.
    apply Z.eqb_neq.
    replace (Z.of_nat (2 * k)) with (0 + Z.of_nat k * 2) by lia.
    rewrite Z_mod_plus_full. discriminate.
Qed.

Lemma process_text_refines (text : str) :
  PlayfairCipher.process_text text = process_text_spec text.
Proof.
  unfold PlayfairCipher.process_text, process_text_spec.
  rewrite comprehension_filter_map, odd_test. reflexivity.
Qed.

(** On ASCII text the processed text has only the letters ['A'] to ['Z']. *)
Lemma process_text_upper (text : str) :
  Forall (fun c => is_ascii c = true) text ->
  Forall (fun c => is_upper c = true) (PlayfairCipher.process_text text).
Proof.
  intros Hascii. rewrite process_text_refines. unfold process_text_spec.
  set (kept := upper (filter isalpha text)).
  assert (Hup : Forall (fun c => is_upper c = true) kept).
  { subst kept. apply Forall_forall. intros d Hd.
    unfold upper in Hd. apply in_flat_map in Hd.
    destruct Hd as (c & Hc & Hd). apply filter_In in Hc.
    destruct Hc as [Hc Ha]. rewrite Forall_forall in Hascii.
    rewrite (ascii_isalpha c (Hascii c Hc)) in Ha.
    rewrite (letter_upper_str c Ha) in Hd. destruct Hd as [<- | []].
    apply upper_char_is_upper. exact Ha. }
  destruct (Nat.odd (List.length kept)); [| exact Hup].
  apply Forall_app. split; [exact Hup |].
  constructor; [reflexivity | constructor].
Qed.

Lemma process_text_even (text : str) :
  Nat.even (List.length (PlayfairCipher.process_text text)) = true.
Proof.
  rewrite process_text_refines. unfold process_text_spec.
  destruct (Nat.odd (List.length (upper (filter isalpha text)))) eqn:E.
  - rewrite length_app. simpl. rewrite Nat.add_1_r, Nat.even_succ. exact E.
  - rewrite <- Nat.negb_odd, E. reflexivity.
Qed.

(** C6, as the code has it.  For every input text, [process_text] returns
    a string of even length: the input without the characters that are not
    alphabetic, each remaining character replaced by its uppercase form,
    with one ['X'] appended exactly when that leaves an odd number of
    characters.  When the input is ASCII, the result is made only of the
    uppercase letters ['A'] to ['Z']. *)
Theorem process_text_even_upper (text : str) :
  Nat.even (List.length (PlayfairCipher.process_text text)) = true /\
  PlayfairCipher.process_text text = process_text_spec text /\
  (Forall (fun c => is_ascii c = true) text ->
   Forall (fun c => is_upper c = true) (PlayfairCipher.process_text text)).
Proof.
  split; [apply process_text_even |].
  split; [apply process_text_refines | apply process_text_upper].
Qed.

Lemma process_text_even_upper_witness :
  Forall (fun c => is_ascii c = true) (lit "Hi, you") /\
  Forall (fun c => is_upper c = true)
         (PlayfairCipher.process_text (lit "Hi, you")).
Proof.
  assert (H : Forall (fun c => is_ascii c = true) (lit "Hi, you"))
    by (repeat constructor).
  split; [exact H |].
  exact (proj2 (proj2 (process_text_even_upper (lit "Hi, you"))) H).
Defined.

(** C6, as the specification has it, fails: the feminine ordinal indicator
    U+00AA is alphabetic and has no uppercase form, so [process_text] keeps
    it, and the result, that character and the padding ['X'], is not made
    of uppercase letters only. *)
Lemma process_text_caseless_letter :
  isalpha "170"%char = true /\
  upper ["170"%char] = ["170"%char] /\
  isupper "170"%char = false /\
  PlayfairCipher.process_text ["170"%char] = ["170"%char; "X"%char] /\
  ~ Forall (fun c => isupper c = true)
           (PlayfairCipher.process_text ["170"%char]).
Proof.
  repeat split; try (vm_compute; reflexivity).
  intros H. apply Forall_inv in H. vm_compute in H. discriminate.
Qed.

Example process_text_demo :
  PlayfairCipher.process_text (lit "Hi, you") = lit "HIYOUX" /\
  PlayfairCipher.process_text (lit "1 + 1 = 2") = [].
Proof. split; vm_compute; reflexivity. Qed.

(** ** The [mode] argument *)

Lemma pair_step_any_mode (self : PlayfairCipher.t) (m1 m2 result0 : str)
      (char1 char2 : ascii) :
  PlayfairCipher.pair_step self m1 result0 char1 char2
  = PlayfairCipher.pair_step self m2 result0 char1 char2.
Proof.
  unfold PlayfairCipher.pair_step.
  destruct (str_eqb m1 (lit "encrypt")), (str_eqb m2 (lit "encrypt"));
    reflexivity.
Qed.

Lemma playfair_transform_any_mode (self : PlayfairCipher.t) (text m1 m2 : str) :
  PlayfairCipher.transform self text m1 = PlayfairCipher.transform self text m2.
Proof.
  unfold PlayfairCipher.transform. apply for_each_ext.
  intros s i _. unfold PlayfairCipher.transform_body.
  destruct (getitem (PlayfairCipher.process_text text) i) as [c1 | e];
    [| reflexivity].
  destruct (getitem (PlayfairCipher.process_text text) (i + 1)) as [c2 | e];
    [| reflexivity].
  apply pair_step_any_mode.
Qed.

(** C5. The mode does not affect the output: on every Playfair object and
    on every Substitution object, [transform] with mode ["encrypt"] and with
    mode ["decrypt"] give the same outcome on every text; hence so do
    [PlayfairCipher(key).transform] and [Substitution(key).transform] for
    every key. *)
Theorem mode_is_ignored :
  (forall (self : PlayfairCipher.t) (text : str),
      PlayfairCipher.transform self text (lit "encrypt")
      = PlayfairCipher.transform self text (lit "decrypt")) /\
  (forall (self : Substitution.t) (text : str),
      Substitution.transform self text (lit "encrypt")
      = Substitution.transform self text (lit "decrypt")) /\
  (forall key text : str,
      (self <- PlayfairCipher.init key ;;
       PlayfairCipher.transform self text (lit "encrypt"))
      = (self <- PlayfairCipher.init key ;;
         PlayfairCipher.transform self text (lit "decrypt"))) /\
  (forall key text : str,
      (self <- Substitution.init key ;;
       Substitution.transform self text (lit "encrypt"))
      = (self <- Substitution.init key ;;
         Substitution.transform self text (lit "decrypt"))).
Proof.
  split; [| split; [| split]].
  - intros self text. apply playfair_transform_any_mode.
  - intros self text. reflexivity.
  - intros key text. destruct (PlayfairCipher.init key) as [self | e];
      [apply playfair_transform_any_mode | reflexivity].
  - intros key text. reflexivity.
Qed.

(** The two modes agree on an output that is not an error. *)
Example mode_is_ignored_demo :
  PlayfairCipher.transform pf_demo (lit "hide the gold") (lit "encrypt")
  = OK (lit "BMODZBXDNAGE") /\
  PlayfairCipher.transform pf_demo (lit "hide the gold") (lit "decrypt")
  = OK (lit "BMODZBXDNAGE").
Proof. split; vm_compute; reflexivity. Qed.

(** ** Rail Fence: the fence and the walk over the rails *)

Lemma map_const_repeat {A B : Type} (v : B) (l : list A) :
  map (fun _ => v) l = repeat v (List.length l).
Proof. induction l as [| x l IH]; simpl; [| rewrite IH]; reflexivity. Qed.

Lemma range_length (n : Z) : List.length (range n) = Z.to_nat n.
Proof. unfold range. rewrite length_map, length_seq. reflexivity. Qed.

Lemma blank_fence_repeat (self : RailFence.t) (text : str) :
  RailFence.blank_fence self text
  = repeat (repeat " "%char (List.length text))
           (Z.to_nat (RailFence.rails self)).
Proof.
  unfold RailFence.blank_fence.
  rewrite (map_const_repeat _ text), map_const_repeat, range_length.
  reflexivity.
Qed.

Lemma getitem_repeat {A : Type} (v : A) (n : nat) (i : Z) :
  0 <= i < Z.of_nat n -> getitem (repeat v n) i = OK v.
Proof.
  intros Hi. apply getitem_nth; [lia |].
  apply nth_error_repeat. lia.
Qed.

Lemma list_set_repeat {A : Type} (v : A) (n j : nat) :
  list_set (repeat v n) j v = repeat v n.
Proof.
  revert j. induction n as [| n IH]; intros j; simpl; [reflexivity |].
  destruct j; [reflexivity | rewrite IH; reflexivity].
Qed.

Lemma setitem_repeat {A : Type} (v : A) (n : nat) (i : Z) :
  0 <= i < Z.of_nat n -> setitem (repeat v n) i v = OK (repeat v n).
Proof.
  intros Hi. unfold setitem.
  rewrite norm_index_in by (unfold len; rewrite repeat_length; lia).
  rewrite list_set_repeat. reflexivity.
Qed.

Lemma advance_on_fence (self : RailFence.t) (rail direction : Z) :
  2 <= RailFence.rails self ->
  on_fence (RailFence.rails self) rail direction ->
  on_fence (RailFence.rails self)
           (fst (RailFence.advance self rail direction))
           (snd (RailFence.advance self rail direction)).
Proof.
  intros HR (Hr & Hd & H0 & Hl). unfold RailFence.advance. cbn [fst snd].
  destruct (Z.eqb_spec (rail + direction) (RailFence.rails self - 1));
    destruct (Z.eqb_spec (rail + direction) 0); cbn [orb];
    unfold on_fence; lia.
Qed.

Lemma decrypt_body_blank (self : RailFence.t) (N : nat) (rail direction : Z)
      (acc : str) (i : Z) :
  2 <= RailFence.rails self -> (1 <= N)%nat ->
  on_fence (RailFence.rails self) rail direction ->
  exists rail' direction',
    on_fence (RailFence.rails self) rail' direction' /\
    RailFence.decrypt_body self
      (blank (RailFence.rails self) N, rail, direction, acc) i
    = OK (blank (RailFence.rails self) N, rail', direction',
          acc ++ [" "%char]).
Proof.
  intros HR HN Hon.
  pose proof (advance_on_fence self rail direction HR Hon) as Hon'.
  destruct (RailFence.advance self rail direction) as [rail' direction'] eqn:Ea.
  cbn [fst snd] in Hon'.
  exists rail', direction'. split; [exact Hon' |].
  unfold RailFence.decrypt_body, blank.
  destruct Hon as [Hr _]. destruct Hon' as [Hr' _].
  rewrite getitem_repeat by lia. cbn [bind].
  rewrite getitem_repeat by lia. cbn [bind].
  rewrite Ea. unfold RailFence.fence_set.
  rewrite getitem_repeat by lia. cbn [bind].
  rewrite setitem_repeat by lia. cbn [bind].
  rewrite setitem_repeat by lia. cbn [bind].
  reflexivity.
Qed.

Lemma decrypt_loop_blank (self : RailFence.t) (N : nat) (l : list Z) :
  2 <= RailFence.rails self -> (1 <= N)%nat ->
  forall (rail direction : Z) (acc : str),
    on_fence (RailFence.rails self) rail direction ->
    exists rail' direction',
      for_each (RailFence.decrypt_body self) l
               (blank (RailFence.rails self) N, rail, direction, acc)
      = OK (blank (RailFence.rails self) N, rail', direction',
            acc ++ repeat " "%char (List.length l)).
Proof.
  intros HR HN. induction l as [| i l IH]; intros rail direction acc Hon.
  - exists rail, direction. simpl. rewrite app_nil_r. reflexivity.
  - destruct (decrypt_body_blank self N rail direction acc i HR HN Hon)
      as (rail1 & direction1 & Hon1 & Hstep).
    destruct (IH rail1 direction1 (acc ++ [" "%char]) Hon1)
      as (rail2 & direction2 & Hloop).
    exists rail2, direction2.
    cbn [for_each]. rewrite Hstep. cbn [bind].
    etransitivity; [exact Hloop |].
    rewrite <- app_assoc. reflexivity.
Qed.

Lemma on_fence_start (R : Z) : 2 <= R -> on_fence R 0 1.
Proof. unfold on_fence. lia. Qed.

(** [decrypt] returns one space for each character of the ciphertext. *)
Lemma decrypt_spaces (self : RailFence.t) (ciphertext : str) :
  2 <= RailFence.rails self ->
  RailFence.decrypt self ciphertext
  = OK (repeat " "%char (List.length ciphertext)).
Proof.
  intros HR. unfold RailFence.decrypt. rewrite blank_fence_repeat.
  rewrite getitem_repeat by lia. cbn [bind].
  fold (blank (RailFence.rails self) (List.length ciphertext)).
  unfold len at 1. rewrite repeat_length.
  destruct ciphertext as [| c cs] eqn:Ec; [reflexivity |].
  rewrite <- Ec.
  assert (HN : (1 <= List.length ciphertext)%nat) by (subst; simpl; lia).
  destruct (decrypt_loop_blank self (List.length ciphertext)
              (range (Z.of_nat (List.length ciphertext))) HR HN 0 1 []
              (on_fence_start _ HR)) as (rail' & direction' & Hloop).
  rewrite Hloop. cbn [bind app].
  rewrite range_length, Nat2Z.id. reflexivity.
Qed.

(** C10. The output of [decrypt] depends only on the length of the
    ciphertext: for every rail count of at least 2, two ciphertexts of the
    same length are decrypted to the same string. *)
Theorem decrypt_depends_on_length_only (self : RailFence.t) (c1 c2 : str) :
  2 <= RailFence.rails self ->
  List.length c1 = List.length c2 ->
  exists out,
    RailFence.decrypt self c1 = OK out /\ RailFence.decrypt self c2 = OK out.
Proof.
  intros HR Hlen. exists (repeat " "%char (List.length c1)).
  split; [apply decrypt_spaces; exact HR |].
  rewrite Hlen. apply decrypt_spaces; exact HR.
Qed.

Lemma decrypt_depends_on_length_only_witness :
  2 <= RailFence.rails (RailFence.init 3) /\
  List.length (lit "HELLO") = List.length (lit "WORLD") /\
  exists out,
    RailFence.decrypt (RailFence.init 3) (lit "HELLO") = OK out /\
    RailFence.decrypt (RailFence.init 3) (lit "WORLD") = OK out.
Proof.
  assert (HR : 2 <= RailFence.rails (RailFence.init 3)) by (simpl; lia).
  assert (HL : List.length (lit "HELLO") = List.length (lit "WORLD"))
    by reflexivity.
  split; [exact HR |]. split; [exact HL |].
  exact (decrypt_depends_on_length_only (RailFence.init 3)
           (lit "HELLO") (lit "WORLD") HR HL).
Defined.

(** ** Rail Fence: [encrypt] *)

Lemma list_set_length {A : Type} (l : list A) (j : nat) (v : A) :
  List.length (list_set l j v) = List.length l.
Proof.
  revert j. induction l as [| x l IH]; intros j; [reflexivity |].
  destruct j; simpl; [| rewrite IH]; reflexivity.
Qed.

Lemma Forall_list_set {A : Type} (P : A -> Prop) (l : list A) (j : nat) (v : A) :
  Forall P l -> P v -> Forall P (list_set l j v).
Proof.
  intros Hl Hv. revert j. induction Hl as [| x l Hx Hl IH]; intros j.
  - constructor.
  - destruct j; simpl; constructor; auto.
Qed.

Lemma getitem_in {A : Type} (l : list A) (i : Z) :
  0 <= i < len l -> exists x, getitem l i = OK x /\ In x l.
Proof.
  intros Hi. destruct (nth_error l (Z.to_nat i)) as [x |] eqn:E.
  - exists x. split; [apply getitem_nth; [lia | exact E] |].
    eapply nth_error_In; exact E.
  - apply nth_error_None in E. unfold len in Hi. lia.
Qed.

Lemma fence_set_shape (R N : nat) (fence : list (list ascii))
      (rail i : Z) (v : ascii) :
  fence_shape R N fence ->
  0 <= rail < Z.of_nat R -> 0 <= i < Z.of_nat N ->
  exists fence',
    RailFence.fence_set fence rail i v = OK fence' /\ fence_shape R N fence'.
Proof.
  intros [HR HN] Hrail Hi. unfold RailFence.fence_set.
  destruct (getitem_in fence rail) as (row & Hrow & Hin);
    [unfold len; lia |].
  rewrite Hrow. cbn [bind].
  assert (Hlen : List.length row = N)
    by (rewrite Forall_forall in HN; apply HN; exact Hin).
  unfold setitem.
  rewrite (norm_index_in (len row)) by (unfold len; lia). cbn [bind].
  rewrite norm_index_in by (unfold len; lia).
  eexists. split; [reflexivity |]. split.
  - rewrite list_set_length. exact HR.
  - apply Forall_list_set; [exact HN |].
    rewrite list_set_length. exact Hlen.
Qed.

Lemma blank_shape (R : Z) (N : nat) : fence_shape (Z.to_nat R) N (blank R N).
Proof.
  unfold fence_shape, blank. split; [apply repeat_length |].
  apply Forall_forall. intros row Hrow.
  apply repeat_spec in Hrow. subst row. apply repeat_length.
Qed.

Lemma encrypt_body_shape (self : RailFence.t) (plaintext : str)
      (fence : list (list ascii)) (rail direction : Z) (char : ascii) :
  2 <= RailFence.rails self -> (1 <= List.length plaintext)%nat ->
  fence_shape (Z.to_nat (RailFence.rails self)) (List.length plaintext) fence ->
  on_fence (RailFence.rails self) rail direction ->
  exists fence' rail' direction',
    RailFence.encrypt_body self plaintext (fence, rail, direction) char
    = OK (fence', rail', direction') /\
    fence_shape (Z.to_nat (RailFence.rails self)) (List.length plaintext)
                fence' /\
    on_fence (RailFence.rails self) rail' direction'.
Proof.
  intros HR HN Hshape Hon.
  pose proof (advance_on_fence self rail direction HR Hon) as Hon'.
  destruct (RailFence.advance self rail direction) as [rail' direction'] eqn:Ea.
  cbn [fst snd] in Hon'.
  unfold RailFence.encrypt_body.
  destruct Hshape as [HRn HNn]. destruct Hon as [Hr Hrest].
  destruct (getitem_in fence rail) as (row & Hrow & Hin);
    [unfold len; lia |].
  rewrite Hrow. cbn [bind].
  assert (Hlen : len row = len plaintext).
  { unfold len. f_equal. rewrite Forall_forall in HNn. apply HNn; exact Hin. }
  rewrite Hlen, Z.sub_diag.
  destruct (fence_set_shape _ _ fence rail 0 char (conj HRn HNn))
    as (fence' & Hset & Hshape'); [lia | lia |].
  rewrite Hset. cbn [bind]. rewrite Ea.
  exists fence', rail', direction'. auto.
Qed.

Lemma encrypt_loop_shape (self : RailFence.t) (plaintext : str) (l : str) :
  2 <= RailFence.rails self -> (1 <= List.length plaintext)%nat ->
  forall (fence : list (list ascii)) (rail direction : Z),
    fence_shape (Z.to_nat (RailFence.rails self)) (List.length plaintext)
                fence ->
    on_fence (RailFence.rails self) rail direction ->
    exists fence' rail' direction',
      for_each (RailFence.encrypt_body self plaintext) l
               (fence, rail, direction)
      = OK (fence', rail', direction') /\
      fence_shape (Z.to_nat (RailFence.rails self)) (List.length plaintext)
                  fence'.
Proof.
  intros HR HN. induction l as [| c l IH]; intros fence rail direction Hs Hon.
  - exists fence, rail, direction. split; [reflexivity | exact Hs].
  - destruct (encrypt_body_shape self plaintext fence rail direction c
                HR HN Hs Hon) as (f1 & r1 & d1 & Hstep & Hs1 & Hon1).
    destruct (IH f1 r1 d1 Hs1 Hon1) as (f2 & r2 & d2 & Hloop & Hs2).
    exists f2, r2, d2. split; [| exact Hs2].
    cbn [for_each]. rewrite Hstep. cbn [bind]. exact Hloop.
Qed.

Lemma concat_shape_length (R N : nat) (fence : list (list ascii)) :
  fence_shape R N fence -> List.length (List.concat fence) = (R * N)%nat.
Proof.
  intros [HR HN]. subst R.
  induction HN as [| row fence Hrow HN IH]; [reflexivity |].
  simpl. rewrite length_app, IH, Hrow. reflexivity.
Qed.

(** For at least two rails, [encrypt] returns a string: the rows of the
    fence one after the other, each as long as the plaintext. *)
Lemma encrypt_length (self : RailFence.t) (plaintext : str) :
  2 <= RailFence.rails self ->
  exists out,
    RailFence.encrypt self plaintext = OK out /\
    List.length out
    = (Z.to_nat (RailFence.rails self) * List.length plaintext)%nat.
Proof.
  intros HR. unfold RailFence.encrypt. rewrite blank_fence_repeat.
  fold (blank (RailFence.rails self) (List.length plaintext)).
  destruct plaintext as [| c cs] eqn:Ep.
  - cbn [for_each bind]. rewrite map_id. eexists. split; [reflexivity |].
    rewrite (concat_shape_length _ _ _ (blank_shape _ _)). reflexivity.
  - rewrite <- Ep.
    assert (HN : (1 <= List.length plaintext)%nat) by (subst; simpl; lia).
    destruct (encrypt_loop_shape self plaintext plaintext HR HN
                (blank (RailFence.rails self) (List.length plaintext)) 0 1
                (blank_shape _ _) (on_fence_start _ HR))
      as (f & r & d & Hloop & Hs).
    rewrite Hloop. cbn [bind]. rewrite map_id.
    eexists. split; [reflexivity |].
    apply concat_shape_length. exact Hs.
Qed.

(** The round trip of a non-empty text returns only spaces, and more of them
    than the text has characters. *)
Lemma railfence_roundtrip_spaces (self : RailFence.t) (x : str) :
  2 <= RailFence.rails self -> x <> [] ->
  exists y,
    (c <- RailFence.encrypt self x ;; RailFence.decrypt self c) = OK y /\
    y = repeat " "%char
               (Z.to_nat (RailFence.rails self) * List.length x) /\
    y <> x.
Proof.
  intros HR Hx.
  destruct (encrypt_length self x HR) as (out & Henc & Hlen).
  rewrite Henc. cbn [bind]. rewrite (decrypt_spaces self out HR), Hlen.
  eexists. split; [reflexivity |]. split; [reflexivity |].
  intros Heq. apply (f_equal (@List.length ascii)) in Heq.
  rewrite repeat_length in Heq.
  destruct x as [| c cs]; [congruence |]. simpl in Heq. nia.
Qed.

(** C2. At two rails the round trip of ["ab"] is four spaces, not ["ab"]. *)
Theorem railfence_roundtrip_ab :
  (c <- RailFence.encrypt (RailFence.init 2) (lit "ab") ;;
   RailFence.decrypt (RailFence.init 2) c) = OK (lit "    ") /\
  (c <- RailFence.encrypt (RailFence.init 2) (lit "ab") ;;
   RailFence.decrypt (RailFence.init 2) c) <> OK (lit "ab").
Proof. split; [vm_compute; reflexivity | vm_compute; discriminate]. Qed.

(** C3. At two rails [encrypt] turns ["ab"] into the four characters
    ["a b "]: each rail is emitted with all its cells, the untouched ones as
    spaces, so the output is longer than the input and no rearrangement of
    it. *)
Theorem railfence_encrypt_ab :
  RailFence.encrypt (RailFence.init 2) (lit "ab") = OK (lit "a b ") /\
  List.length (lit "a b ") <> List.length (lit "ab") /\
  ~ Permutation (lit "ab") (lit "a b ").
Proof.
  split; [vm_compute; reflexivity |].
  split; [vm_compute; discriminate |].
  intros HP. apply Permutation_length in HP. vm_compute in HP. discriminate.
Qed.

(** A later character written on a rail replaces the earlier one. *)
Example railfence_encrypt_hello :
  RailFence.encrypt (RailFence.init 2) (lit "HELLO") = OK (lit "O    L    ").
Proof. vm_compute; reflexivity. Qed.

(** ** Empty text *)

Lemma concat_blank_nil (R : Z) : List.concat (blank R 0) = [].
Proof.
  unfold blank. induction (Z.to_nat R) as [| n IH]; [reflexivity |].
  simpl. exact IH.
Qed.

Lemma railfence_encrypt_nil (self : RailFence.t) :
  RailFence.encrypt self [] = OK [].
Proof.
  unfold RailFence.encrypt. rewrite blank_fence_repeat.
  cbn [for_each bind List.length]. rewrite map_id.
  fold (blank (RailFence.rails self) 0). rewrite concat_blank_nil.
  reflexivity.
Qed.

Lemma railfence_decrypt_nil (self : RailFence.t) :
  1 <= RailFence.rails self -> RailFence.decrypt self [] = OK [].
Proof.
  intros HR. unfold RailFence.decrypt. rewrite blank_fence_repeat.
  rewrite getitem_repeat by lia. reflexivity.
Qed.

(** C8. An empty text yields an empty output for the three ciphers: for
    every Playfair object, every Rail Fence object with a rail (the
    specification asks for two at least; the constructor checks nothing)
    and every Substitution object, [transform], [encrypt] and [decrypt]
    return the empty string on the empty string, and [process_text] adds no
    padding to it. *)
Theorem empty_text_empty_output
        (pf : PlayfairCipher.t) (rf : RailFence.t) (sb : Substitution.t)
        (mode : str) :
  1 <= RailFence.rails rf ->
  PlayfairCipher.process_text [] = [] /\
  PlayfairCipher.transform pf [] mode = OK [] /\
  RailFence.encrypt rf [] = OK [] /\
  RailFence.decrypt rf [] = OK [] /\
  Substitution.transform sb [] mode = OK [].
Proof.
  intros HR. split; [reflexivity |]. split; [reflexivity |].
  split; [apply railfence_encrypt_nil |].
  split; [apply railfence_decrypt_nil; exact HR | reflexivity].
Qed.

Lemma empty_text_empty_output_witness :
  1 <= RailFence.rails (RailFence.init 2) /\
  PlayfairCipher.process_text [] = [] /\
  PlayfairCipher.transform pf_demo [] (lit "encrypt") = OK [] /\
  RailFence.encrypt (RailFence.init 2) [] = OK [] /\
  RailFence.decrypt (RailFence.init 2) [] = OK [] /\
  Substitution.transform sb_demo [] (lit "encrypt") = OK [].
Proof.
  assert (HR : 1 <= RailFence.rails (RailFence.init 2)) by (simpl; lia).
  split; [exact HR |].
  exact (empty_text_empty_output pf_demo (RailFence.init 2) sb_demo
           (lit "encrypt") HR).
Defined.

(** Without a rail, [decrypt] raises on the empty string. *)
Example railfence_decrypt_nil_no_rail :
  RailFence.decrypt (RailFence.init 0) [] = Raise IndexError.
Proof. vm_compute; reflexivity. Qed.

(** ** [sorted] and [index] *)

Lemma index_in (x : ascii) (s : str) :
  In x s -> exists i, index x s = OK i /\ 0 <= i < len s.
Proof.
  induction s as [| c s IH]; intros Hin; [contradiction |].
  cbn [index]. rewrite len_cons. pose proof (len_nonneg s).
  destruct (Ascii.eqb_spec c x) as [-> | Hne].
  - exists 0. split; [reflexivity | lia].
  - destruct Hin as [-> | Hin]; [congruence |].
    destruct (IH Hin) as (i & Hi & Hb). rewrite Hi. cbn [bind].
    exists (i + 1). split; [reflexivity | lia].
Qed.

Lemma index_not_in (x : ascii) (s : str) :
  ~ In x s -> index x s = Raise ValueError.
Proof.
  induction s as [| c s IH]; intros Hnin; [reflexivity |].
  cbn [index]. destruct (Ascii.eqb_spec c x) as [-> | Hne].
  - exfalso. apply Hnin. left; reflexivity.
  - rewrite IH; [reflexivity |]. intros Hin. apply Hnin. right; exact Hin.
Qed.

Lemma contains_In (x : ascii) (s : str) : contains x s = true <-> In x s.
Proof.
  unfold contains. rewrite existsb_exists. split.
  - intros (y & Hy & Heq). apply Ascii.eqb_eq in Heq. subst. exact Hy.
  - intros Hin. exists x. split; [exact Hin | apply Ascii.eqb_refl].
Qed.

Lemma map_result_total {A B : Type} (f : A -> result B) (l : list A) :
  (forall x, In x l -> exists y, f x = OK y) ->
  exists ys, map_result f l = OK ys /\ List.length ys = List.length l.
Proof.
  induction l as [| x l IH]; intros Hf.
  - exists []. split; reflexivity.
  - destruct (Hf x (or_introl eq_refl)) as (y & Hy).
    destruct IH as (ys & Hys & Hlen);
      [intros z Hz; apply Hf; right; exact Hz |].
    exists (y :: ys). cbn [map_result]. rewrite Hy. cbn [bind].
    rewrite Hys. cbn [bind]. split; [reflexivity | simpl; congruence].
Qed.

Lemma insert_by_perm {A : Type} (k : Z) (x : A) (l : list (Z * A)) :
  Permutation (insert_by k x l) ((k, x) :: l).
Proof.
  induction l as [| [k' y] l IH]; [reflexivity |].
  cbn [insert_by]. destruct (k <=? k'); [reflexivity |].
  rewrite IH. apply perm_swap.
Qed.

Lemma sort_keyed_perm {A : Type} (l : list (Z * A)) :
  Permutation (sort_keyed l) l.
Proof.
  induction l as [| [k x] l IH]; [reflexivity |].
  cbn [sort_keyed fold_right fst snd].
  rewrite insert_by_perm. apply perm_skip. exact IH.
Qed.

Lemma map_snd_combine {A B : Type} (ks : list A) (l : list B) :
  List.length ks = List.length l -> map snd (combine ks l) = l.
Proof.
  revert l. induction ks as [| k ks IH]; intros [| x l] Hlen;
    try discriminate; [reflexivity |].
  simpl. rewrite IH by (simpl in Hlen; congruence). reflexivity.
Qed.

(** When no key raises, [sorted] returns a rearrangement of its argument. *)
Lemma sorted_by_total {A : Type} (f : A -> result Z) (l : list A) :
  (forall x, In x l -> exists k, f x = OK k) ->
  exists out, sorted_by f l = OK out /\ Permutation out l.
Proof.
  intros Hf. destruct (map_result_total f l Hf) as (keys & Hk & Hlen).
  unfold sorted_by. rewrite Hk. cbn [bind].
  eexists. split; [reflexivity |].
  rewrite sort_keyed_perm. rewrite map_snd_combine by exact Hlen.
  reflexivity.
Qed.

(** When a key raises, [sorted] raises. *)
Lemma map_result_raises {A B : Type} (f : A -> result B) (l : list A)
      (x : A) (e : exn) :
  In x l -> f x = Raise e ->
  (forall y e', f y = Raise e' -> e' = e) ->
  map_result f l = Raise e.
Proof.
  intros Hin Hx Hall. induction l as [| y l IH]; [contradiction |].
  cbn [map_result]. destruct (f y) as [b | e'] eqn:Ey.
  - cbn [bind]. destruct Hin as [-> | Hin]; [congruence |].
    rewrite (IH Hin). reflexivity.
  - cbn [bind]. rewrite (Hall y e' Ey). reflexivity.
Qed.

(** ** Substitution: the derived key *)

Lemma comprehension_filter {A : Type} (f : A -> bool) (l : list A) :
  flat_map (fun x => if f x then [x] else []) l = filter f l.
Proof.
  induction l as [| x l IH]; [reflexivity |].
  cbn [flat_map filter]. destruct (f x); rewrite IH; reflexivity.
Qed.

Lemma filter_split_length {A : Type} (f : A -> bool) (l : list A) :
  (List.length (filter f l) + List.length (filter (fun x => negb (f x)) l)
   = List.length l)%nat.
Proof.
  induction l as [| x l IH]; [reflexivity |].
  cbn [filter]. destruct (f x); cbn [negb List.length]; lia.
Qed.

Lemma alphabet_NoDup : NoDup (lit "abcdefghijklmnopqrstuvwxyz").
Proof.
  replace (lit "abcdefghijklmnopqrstuvwxyz")
    with (nodup ascii_dec (lit "abcdefghijklmnopqrstuvwxyz"))
    by (vm_compute; reflexivity).
  apply NoDup_nodup.
Qed.

Lemma alphabet_lower (ch : ascii) :
  In ch (lit "abcdefghijklmnopqrstuvwxyz") ->
  is_lower ch = true /\ lower_char ch = ch /\ ch <> " "%char.
Proof.
  intros Hin.
  assert (Hall : forallb (fun c => is_lower c && Ascii.eqb (lower_char c) c
                                   && negb (Ascii.eqb c " "))
                         (lit "abcdefghijklmnopqrstuvwxyz") = true)
    by (vm_compute; reflexivity).
  rewrite forallb_forall in Hall. specialize (Hall ch Hin).
  apply andb_true_iff in Hall. destruct Hall as [Hall Hsp].
  apply andb_true_iff in Hall. destruct Hall as [Hlo Hlc].
  apply Ascii.eqb_eq in Hlc. apply negb_true_iff in Hsp.
  apply Ascii.eqb_neq in Hsp. auto.
Qed.

Lemma init_succeeds (password : str) :
  exists head,
    sorted_by (fun x => index x (lower password))
              (set_of (remove_char " " (lower password))) = OK head /\
    Permutation head (set_of (remove_char " " (lower password))) /\
    Substitution.init password
    = OK {| Substitution.alphabet := lit "abcdefghijklmnopqrstuvwxyz";
            Substitution.key :=
              head ++ filter (fun ch => negb (contains ch password))
                             (lit "abcdefghijklmnopqrstuvwxyz") |}.
Proof.
  destruct (sorted_by_total (fun x => index x (lower password))
              (set_of (remove_char " " (lower password))))
    as (head & Hsort & Hperm).
  - intros x Hx. unfold set_of in Hx. apply nodup_In in Hx.
    unfold remove_char in Hx. apply filter_In in Hx. destruct Hx as [Hx _].
    destruct (index_in x (lower password) Hx) as (i & Hi & _).
    exists i. exact Hi.
  - exists head. split; [exact Hsort |]. split; [exact Hperm |].
    unfold Substitution.init. rewrite Hsort. cbn [bind].
    rewrite comprehension_filter. reflexivity.
Qed.

(** Every lowercase letter of the password is in the sorted head. *)
Lemma letters_in_head (password : str) (ch : ascii) :
  In ch (lit "abcdefghijklmnopqrstuvwxyz") ->
  contains ch password = true ->
  In ch (set_of (remove_char " " (lower password))).
Proof.
  intros Hal Hc. apply contains_In in Hc.
  destruct (alphabet_lower ch Hal) as (_ & Hlc & Hsp).
  unfold set_of. apply nodup_In. unfold remove_char. apply filter_In.
  split.
  - unfold lower. rewrite <- Hlc. apply in_map. exact Hc.
  - apply negb_true_iff. apply Ascii.eqb_neq. exact Hsp.
Qed.

Lemma key_length (password head : str) :
  Permutation head (set_of (remove_char " " (lower password))) ->
  (26 <= List.length
           (head ++ filter (fun ch => negb (contains ch password))
                           (lit "abcdefghijklmnopqrstuvwxyz")))%nat.
Proof.
  intros Hperm.
  rewrite length_app, (Permutation_length Hperm).
  pose proof (filter_split_length (fun ch => contains ch password)
                (lit "abcdefghijklmnopqrstuvwxyz")) as Hs.
  replace (List.length (lit "abcdefghijklmnopqrstuvwxyz")) with 26%nat in Hs
    by reflexivity.
  assert (Hle : (List.length (filter (fun ch => contains ch password)
                                     (lit "abcdefghijklmnopqrstuvwxyz"))
                 <= List.length (set_of (remove_char " " (lower password))))%nat).
  { apply NoDup_incl_length.
    - apply NoDup_filter. apply alphabet_NoDup.
    - intros ch Hch. apply filter_In in Hch. destruct Hch as [Hal Hc].
      apply letters_in_head; assumption. }
  lia.
Qed.

Lemma transform_body_total (self : Substitution.t) (result0 : str) (ch : ascii) :
  len (Substitution.alphabet self) <= len (Substitution.key self) ->
  exists out, Substitution.transform_body self result0 ch = OK out.
Proof.
  intros Hlen. unfold Substitution.transform_body.
  destruct (contains ch (Substitution.alphabet self)) eqn:Ec;
    [| eexists; reflexivity].
  apply contains_In in Ec.
  destruct (index_in ch _ Ec) as (i & Hi & Hb). rewrite Hi. cbn [bind].
  destruct (getitem_in (Substitution.key self) i) as (k & Hk & _); [lia |].
  rewrite Hk. cbn [bind]. eexists; reflexivity.
Qed.

Lemma transform_total (self : Substitution.t) (text mode : str) :
  len (Substitution.alphabet self) <= len (Substitution.key self) ->
  exists out, Substitution.transform self text mode = OK out.
Proof.
  intros Hlen. unfold Substitution.transform. generalize (@nil ascii).
  induction text as [| ch text IH]; intros acc.
  - exists acc. reflexivity.
  - destruct (transform_body_total self acc ch Hlen) as (acc' & Hstep).
    destruct (IH acc') as (out & Hout).
    exists out. cbn [for_each]. rewrite Hstep. cbn [bind]. exact Hout.
Qed.

(** C9. [Substitution.transform] is total: for every password, the empty
    one included, the constructor returns an object whose key has at least
    26 characters, so on every text each lookup [key[alphabet.index(ch)]]
    is in bounds and [transform] returns a string. *)
Theorem substitution_transform_total (password : str) :
  exists self,
    Substitution.init password = OK self /\
    (26 <= List.length (Substitution.key self))%nat /\
    (forall ch i, index ch (Substitution.alphabet self) = OK i ->
                  exists k, getitem (Substitution.key self) i = OK k) /\
    (forall text mode, exists out,
        Substitution.transform self text mode = OK out).
Proof.
  destruct (init_succeeds password) as (head & _ & Hperm & Heq).
  pose proof (key_length password head Hperm) as Hlen.
  eexists. split; [exact Heq |].
  cbn [Substitution.key Substitution.alphabet].
  assert (Hal : len (lit "abcdefghijklmnopqrstuvwxyz") = 26) by reflexivity.
  split; [exact Hlen |]. split.
  - intros ch i Hi.
    assert (Hin : In ch (lit "abcdefghijklmnopqrstuvwxyz")).
    { destruct (in_dec ascii_dec ch (lit "abcdefghijklmnopqrstuvwxyz"))
        as [H | H]; [exact H |].
      rewrite (index_not_in _ _ H) in Hi. discriminate. }
    destruct (index_in ch _ Hin) as (j & Hj & Hb).
    rewrite Hi in Hj. injection Hj as <-.
    destruct (getitem_in (head ++ filter (fun ch => negb (contains ch password))
                                         (lit "abcdefghijklmnopqrstuvwxyz")) i)
      as (k & Hk & _).
    + rewrite Hal in Hb. unfold len. lia.
    + exists k. exact Hk.
  - intros text mode. apply transform_total.
    cbn [Substitution.key Substitution.alphabet]. rewrite Hal.
    unfold len. lia.
Qed.

(** The empty password gives the alphabet itself as key. *)
Example substitution_empty_password :
  Substitution.init [] = OK sb_demo.
Proof. vm_compute; reflexivity. Qed.

Example substitution_keyword_hello :
  (self <- Substitution.init (lit "keyword") ;;
   Substitution.transform self (lit "hello, World") (lit "encrypt"))
  = OK (lit "aoggj, Wjngw").
Proof. vm_compute; reflexivity. Qed.

(** C4. For the password ["KEYWORD"] the derived key is ["keyword"]
    followed by the whole alphabet: 33 characters, seven of them twice.
    The first part is built from the lowercased password, the second tests
    each letter against the password as given. *)
Theorem substitution_key_uppercase_password :
  exists self,
    Substitution.init (lit "KEYWORD") = OK self /\
    Substitution.key self = lit "keywordabcdefghijklmnopqrstuvwxyz" /\
    List.length (Substitution.key self) = 33%nat /\
    ~ NoDup (Substitution.key self) /\
    ~ Permutation (Substitution.key self) (lit "abcdefghijklmnopqrstuvwxyz").
Proof.
  eexists. split; [vm_compute; reflexivity |].
  cbn [Substitution.key].
  split; [reflexivity |]. split; [reflexivity |]. split.
  - intros Hnd. inversion Hnd as [| x l Hnin _]. apply Hnin.
    vm_compute. tauto.
  - intros HP. apply Permutation_length in HP. discriminate.
Qed.

(** A character that is not a letter stays in the key as well. *)
Example substitution_key_digit_password :
  exists self,
    Substitution.init (lit "p4ss") = OK self /\
    Substitution.key self = lit "p4sabcdefghijklmnoqrtuvwxyz".
Proof. eexists. split; [vm_compute; reflexivity | reflexivity]. Qed.

Lemma is_lower_alphabet (c : ascii) :
  is_lower c = contains c (lit "abcdefghijklmnopqrstuvwxyz").
Proof.
  destruct c as [[] [] [] [] [] [] [] []]; vm_compute; reflexivity.
Qed.

Lemma lower_char_fixed (c : ascii) : isupper c = false -> lower_char c = c.
Proof.
  intros H. unfold lower_char. fold (isupper c). rewrite H. reflexivity.
Qed.

Lemma lower_is_not_upper (c : ascii) :
  is_lower c = true -> isupper c = false.
Proof.
  destruct c as [[] [] [] [] [] [] [] []]; vm_compute; intros H;
    solve [reflexivity | discriminate].
Qed.

(** On a password of lowercase letters and spaces the key is a
    rearrangement of the alphabet. *)
Lemma substitution_key_lowercase_password (password : str) (self : Substitution.t) :
  Forall (fun c => is_lower c = true \/ c = " "%char) password ->
  Substitution.init password = OK self ->
  Permutation (Substitution.key self) (lit "abcdefghijklmnopqrstuvwxyz").
Proof.
  intros Hpw Hinit.
  destruct (init_succeeds password) as (head & _ & Hperm & Heq).
  assert (Hkey : Substitution.key self
                 = head ++ filter (fun ch => negb (contains ch password))
                                  (lit "abcdefghijklmnopqrstuvwxyz")).
  { rewrite Heq in Hinit.
    apply (f_equal (fun r => match r with
                             | OK s => Substitution.key s
                             | Raise _ => []
                             end)) in Hinit.
    cbn [Substitution.key] in Hinit. symmetry. exact Hinit. }
  rewrite Hkey. clear Hkey Heq Hinit.
  assert (Hlow : lower password = password).
  { unfold lower. rewrite <- (map_id password) at 2.
    apply map_ext_in. intros c Hc. rewrite Forall_forall in Hpw.
    apply lower_char_fixed. destruct (Hpw c Hc) as [H | ->];
      [apply lower_is_not_upper; exact H | reflexivity]. }
  rewrite Hlow in Hperm.
  assert (Hhead : forall x, In x head <-> In x password /\ x <> " "%char).
  { intros x. rewrite (Permutation_in' (eq_refl x) Hperm).
    unfold set_of. rewrite nodup_In. unfold remove_char.
    rewrite filter_In, negb_true_iff. split; intros [H1 H2]; split; auto.
    - apply Ascii.eqb_neq; exact H2.
    - apply Ascii.eqb_neq; exact H2. }
  apply NoDup_Permutation.
  - apply NoDup_app.
    + apply (Permutation_NoDup (Permutation_sym Hperm)).
      apply NoDup_nodup.
    + apply NoDup_filter. apply alphabet_NoDup.
    + intros x Hx Hx'. apply Hhead in Hx. apply filter_In in Hx'.
      destruct Hx' as [_ Hx']. apply negb_true_iff in Hx'.
      destruct Hx as [Hx _]. apply contains_In in Hx. congruence.
  - apply alphabet_NoDup.
  - intros x. rewrite in_app_iff, Hhead, filter_In, negb_true_iff. split.
    + intros [[Hx Hsp] | [Hx _]]; [| exact Hx].
      rewrite Forall_forall in Hpw. destruct (Hpw x Hx) as [H | H];
        [| contradiction].
      apply contains_In. rewrite <- is_lower_alphabet. exact H.
    + intros Hx. destruct (contains x password) eqn:Ec.
      * left. split; [apply contains_In; exact Ec |].
        apply (alphabet_lower x Hx).
      * right. split; [exact Hx | reflexivity].
Qed.

(** ** Playfair: the constructor *)

Lemma lower_char_not_upper (c : ascii) : is_upper (lower_char c) = false.
Proof.
  destruct c as [[] [] [] [] [] [] [] []]; vm_compute; reflexivity.
Qed.

Lemma index_raises (x : ascii) (s : str) (e : exn) :
  index x s = Raise e -> e = ValueError.
Proof.
  induction s as [| c s IH]; cbn [index]; intros H.
  - injection H as <-. reflexivity.
  - destruct (Ascii.eqb c x); [discriminate |].
    destruct (index x s) as [i | e']; cbn [bind] in H; [discriminate |].
    injection H as <-. apply IH. reflexivity.
Qed.

(** A key with a letter makes the constructor raise: the sorted characters
    are uppercase, the string they are looked up in is lowercase. *)
Lemma playfair_init_letter_raises (key0 : str) (c : ascii) :
  In c key0 -> is_letter c = true ->
  PlayfairCipher.init key0 = Raise ValueError.
Proof.
  intros Hin Hc. unfold PlayfairCipher.init, sorted_by.
  rewrite (map_result_raises _ _ (upper_char c) ValueError).
  - reflexivity.
  - unfold set_of. apply nodup_In. unfold upper. apply in_flat_map.
    exists c. split; [exact Hin |]. rewrite (letter_upper_str c Hc).
    left; reflexivity.
  - apply index_not_in. unfold lower. intros Hx.
    apply in_map_iff in Hx. destruct Hx as (d & Hd & _).
    pose proof (upper_char_is_upper c Hc) as Hu.
    rewrite <- Hd, lower_char_not_upper in Hu. discriminate.
  - intros y e' Hy. apply (index_raises _ _ _ Hy).
Qed.

(** C1. The constructor raises [ValueError] on the key ["a"]: the character
    to sort is ['A'], and ["a".index('A')] finds nothing. *)
Theorem playfair_init_a :
  PlayfairCipher.init (lit "a") = Raise ValueError /\
  set_of (upper (lit "a")) = lit "A" /\
  index "A"%char (lower (lit "a")) = Raise ValueError.
Proof. repeat split; vm_compute; reflexivity. Qed.

Example playfair_init_keyword :
  PlayfairCipher.init (lit "playfair example") = Raise ValueError.
Proof. vm_compute; reflexivity. Qed.

(** A key without letters is accepted. *)
Example playfair_init_digits :
  exists self,
    PlayfairCipher.init (lit "12 1;") = OK self /\
    PlayfairCipher.key self = lit "12 ;" /\
    PlayfairCipher.key_matrix self = [lit "12 ;"].
Proof. eexists. split; [vm_compute; reflexivity | split; reflexivity]. Qed.

(** ** Playfair: characters outside the matrix *)

Lemma pair_ind (P : str -> Prop) :
  P [] -> (forall c, P [c]) ->
  (forall c1 c2 t, P t -> P (c1 :: c2 :: t)) ->
  forall t, P t.
Proof.
  intros H0 H1 H2 t.
  assert (H : P t /\ forall c, P (c :: t)).
  { induction t as [| d t [IHa IHb]]; [split; [exact H0 | exact H1] |].
    split; [apply IHb |]. intros c. apply H2. exact IHa. }
  exact (proj1 H).
Qed.

Lemma pairs_count_range (text : str) :
  Z.to_nat ((len text - 0 + 2 - 1) / 2) = pairs_count text.
Proof.
  induction text as [| c | c1 c2 t IH] using pair_ind;
    [reflexivity | reflexivity |].
  cbn [pairs_count]. rewrite <- IH. rewrite !len_cons.
  pose proof (len_nonneg t).
  replace (len t + 1 + 1 - 0 + 2 - 1) with ((len t - 0 + 2 - 1) + 1 * 2) by lia.
  rewrite Z.div_add by lia.
  rewrite Z2Nat.inj_add; [| apply Z.div_pos; lia | lia].
  simpl (Z.to_nat 1). lia.
Qed.

Lemma getitem_app_mid {A : Type} (pre : list A) (c : A) (t : list A) :
  getitem (pre ++ c :: t) (len pre) = OK c.
Proof.
  apply getitem_nth; [apply len_nonneg |].
  unfold len. rewrite Nat2Z.id.
  rewrite nth_error_app2 by lia. rewrite Nat.sub_diag. reflexivity.
Qed.

Lemma getitem_app_end {A : Type} (pre : list A) (c : A) :
  getitem (pre ++ [c]) (len pre + 1) = Raise IndexError.
Proof. apply getitem_out. rewrite len_app, len_cons, len_nil. lia. Qed.

(** The indexed loop, started at the pair [k] of the text [pre ++ t], does
    what [pairs_loop] does on [t]. *)
Lemma for_each_pairs (self : PlayfairCipher.t) (mode : str) (t : str) :
  forall (pre : str) (k : nat) (acc : str),
    List.length pre = (2 * k)%nat ->
    for_each (PlayfairCipher.transform_body self mode (pre ++ t))
             (map (fun j => 0 + 2 * Z.of_nat j) (seq k (pairs_count t))) acc
    = pairs_loop self mode t acc.
Proof.
  induction t as [| c | c1 c2 t IH] using pair_ind; intros pre k acc Hpre.
  - reflexivity.
  - cbn [pairs_count seq map for_each pairs_loop].
    unfold PlayfairCipher.transform_body.
    replace (0 + 2 * Z.of_nat k) with (len pre) by (unfold len; lia).
    rewrite getitem_app_mid. cbn [bind].
    rewrite getitem_app_end. reflexivity.
  - cbn [pairs_count seq map for_each pairs_loop].
    unfold PlayfairCipher.transform_body at 1.
    replace (0 + 2 * Z.of_nat k) with (len pre) by (unfold len; lia).
    rewrite getitem_app_mid. cbn [bind].
    replace (pre ++ c1 :: c2 :: t) with ((pre ++ [c1]) ++ c2 :: t)
      by (rewrite <- app_assoc; reflexivity).
    replace (len pre + 1) with (len (pre ++ [c1]))
      by (rewrite len_app, len_cons, len_nil; lia).
    rewrite getitem_app_mid. cbn [bind].
    destruct (PlayfairCipher.pair_step self mode acc c1 c2) as [acc' | e];
      cbn [bind]; [| reflexivity].
    replace ((pre ++ [c1]) ++ c2 :: t) with ((pre ++ [c1; c2]) ++ t)
      by (rewrite <- !app_assoc; reflexivity).
    apply IH. rewrite length_app. simpl. lia.
Qed.

Lemma transform_loop_pairs (self : PlayfairCipher.t) (mode text : str) :
  PlayfairCipher.transform_loop self mode text = pairs_loop self mode text [].
Proof.
  unfold PlayfairCipher.transform_loop, range3.
  rewrite pairs_count_range.
  apply (for_each_pairs self mode text [] 0 []). reflexivity.
Qed.

Lemma pairs_loop_app (self : PlayfairCipher.t) (mode : str) (done t : str) :
  forall acc out,
    pairs_loop self mode done acc = OK out ->
    pairs_loop self mode (done ++ t) acc = pairs_loop self mode t out.
Proof.
  induction done as [| c | c1 c2 done IH] using pair_ind; intros acc out H.
  - injection H as <-. reflexivity.
  - discriminate.
  - cbn [pairs_loop app] in *.
    destruct (PlayfairCipher.pair_step self mode acc c1 c2) as [acc' | e];
      cbn [bind] in *; [| discriminate].
    apply IH. exact H.
Qed.

Lemma in_enumerate {A : Type} (l : list A) (r : Z) (x : A) :
  In (r, x) (enumerate l) -> getitem l r = OK x /\ In x l.
Proof.
  unfold enumerate, range, len. rewrite Nat2Z.id.
  assert (H : forall off n,
             In (r, x) (combine (map Z.of_nat (seq off n)) l) ->
             exists j, r = Z.of_nat (off + j) /\ nth_error l j = Some x).
  { induction l as [| y l IH]; intros off n Hin.
    - destruct (map Z.of_nat (seq off n)); contradiction.
    - destruct n as [| n]; [contradiction |].
      cbn [seq map combine] in Hin. destruct Hin as [Heq | Hin].
      + injection Heq as <- <-. exists 0%nat.
        split; [f_equal; lia | reflexivity].
      + destruct (IH (S off) n Hin) as (j & -> & Hj).
        exists (S j). split; [f_equal; lia | exact Hj]. }
  intros Hin. destruct (H 0%nat _ Hin) as (j & -> & Hj).
  split; [| eapply nth_error_In; exact Hj].
  apply getitem_nth; [lia |]. rewrite Nat2Z.id. exact Hj.
Qed.

Lemma find_in_rows_cases (rows : list (Z * str)) (char : ascii) :
  PlayfairCipher.find_in_rows rows char = OK (None, None) \/
  exists r row k,
    In (r, row) rows /\
    PlayfairCipher.find_in_rows rows char = OK (Some r, Some k).
Proof.
  induction rows as [| [r row] rows IH]; [left; reflexivity |].
  cbn [PlayfairCipher.find_in_rows].
  destruct (contains char row) eqn:Ec.
  - right. apply contains_In in Ec.
    destruct (index_in char row Ec) as (k & Hk & _).
    exists r, row, k. rewrite Hk. split; [left |]; reflexivity.
  - destruct IH as [IH | (r' & row' & k & Hin & IH)]; [left; exact IH |].
    right. exists r', row', k. split; [right; exact Hin | exact IH].
Qed.

Lemma find_in_rows_absent (rows : list (Z * str)) (char : ascii) :
  (forall p, In p rows -> ~ In char (snd p)) ->
  PlayfairCipher.find_in_rows rows char = OK (None, None).
Proof.
  induction rows as [| [r row] rows IH]; intros Habs; [reflexivity |].
  cbn [PlayfairCipher.find_in_rows].
  destruct (contains char row) eqn:Ec.
  - apply contains_In in Ec. exfalso.
    apply (Habs (r, row)); [left; reflexivity | exact Ec].
  - apply IH. intros p Hp. apply Habs. right; exact Hp.
Qed.

(** For a character outside the matrix [find_positions] returns
    [(None, None)]. *)
Lemma find_positions_absent (self : PlayfairCipher.t) (char : ascii) :
  absent self char ->
  PlayfairCipher.find_positions self char = OK (None, None).
Proof.
  intros Habs. unfold PlayfairCipher.find_positions.
  apply find_in_rows_absent. intros [r row] Hp. cbn [snd].
  apply Habs. apply (in_enumerate _ _ _ Hp).
Qed.

(** Otherwise it returns a position whose row exists. *)
Lemma find_positions_cases (self : PlayfairCipher.t) (char : ascii) :
  PlayfairCipher.find_positions self char = OK (None, None) \/
  exists r row k,
    getitem (PlayfairCipher.key_matrix self) r = OK row /\
    PlayfairCipher.find_positions self char = OK (Some r, Some k).
Proof.
  unfold PlayfairCipher.find_positions.
  destruct (find_in_rows_cases (enumerate (PlayfairCipher.key_matrix self))
                               char) as [H | (r & row & k & Hin & H)];
    [left; exact H |].
  right. exists r, row, k. split; [apply (in_enumerate _ _ _ Hin) | exact H].
Qed.

(** A pair with a character outside the matrix raises [TypeError]: both
    positions [None] fail in [(col + 1) % 5], a single [None] fails as a
    subscript of the matrix or of its row. *)
Lemma pair_step_absent (self : PlayfairCipher.t) (mode result0 : str)
      (char1 char2 : ascii) :
  absent self char1 \/ absent self char2 ->
  PlayfairCipher.pair_step self mode result0 char1 char2 = Raise TypeError.
Proof.
  intros [Habs | Habs]; apply find_positions_absent in Habs;
    unfold PlayfairCipher.pair_step.
  - rewrite Habs. cbn [bind].
    destruct (find_positions_cases self char2)
      as [H2 | (r & row & k & _ & H2)]; rewrite H2; cbn [bind].
    + reflexivity.
    + cbn [PlayfairCipher.pos_eqb bind].
      destruct (str_eqb mode (lit "encrypt")); reflexivity.
  - destruct (find_positions_cases self char1)
      as [H1 | (r & row & k & Hrow & H1)]; rewrite H1, Habs; cbn [bind].
    + reflexivity.
    + cbn [PlayfairCipher.pos_eqb bind].
      unfold PlayfairCipher.cell. cbn [subscript]. rewrite Hrow. cbn [bind].
      destruct (str_eqb mode (lit "encrypt")); reflexivity.
Qed.

(** C7, as the code has it.  When the loop of [transform] reaches a pair
    with a character that no row of the key matrix holds (the pairs before
    it were transformed), the call raises Python's [TypeError]:
    [find_positions] returned [(None, None)] and that position went into
    the shift arithmetic or into a subscript. *)
Theorem playfair_absent_char_raises_TypeError
        (self : PlayfairCipher.t) (text mode done rest out : str)
        (char1 char2 : ascii) :
  PlayfairCipher.process_text text = done ++ char1 :: char2 :: rest ->
  PlayfairCipher.transform_loop self mode done = OK out ->
  absent self char1 \/ absent self char2 ->
  PlayfairCipher.transform self text mode = Raise TypeError.
Proof.
  intros Htext Hdone Habs. unfold PlayfairCipher.transform.
  rewrite Htext, transform_loop_pairs.
  rewrite transform_loop_pairs in Hdone.
  rewrite (pairs_loop_app self mode done _ [] out Hdone).
  cbn [pairs_loop]. rewrite (pair_step_absent self mode out _ _ Habs).
  reflexivity.
Qed.

Lemma pf_demo_no_J : absent pf_demo "J"%char.
Proof.
  intros row Hrow Hin.
  assert (Hc : existsb (contains "J"%char) (PlayfairCipher.key_matrix pf_demo)
               = false) by (vm_compute; reflexivity).
  assert (Ht : existsb (contains "J"%char) (PlayfairCipher.key_matrix pf_demo)
               = true).
  { apply existsb_exists. exists row. split; [exact Hrow |].
    apply contains_In. exact Hin. }
  congruence.
Qed.

Lemma playfair_absent_char_raises_TypeError_witness :
  PlayfairCipher.process_text (lit "hi, joe")
  = lit "HI" ++ "J"%char :: "O"%char :: lit "EX" /\
  PlayfairCipher.transform_loop pf_demo (lit "encrypt") (lit "HI")
  = OK (lit "BM") /\
  (absent pf_demo "J"%char \/ absent pf_demo "O"%char) /\
  PlayfairCipher.transform pf_demo (lit "hi, joe") (lit "encrypt")
  = Raise TypeError.
Proof.
  assert (H1 : PlayfairCipher.process_text (lit "hi, joe")
               = lit "HI" ++ "J"%char :: "O"%char :: lit "EX")
    by (vm_compute; reflexivity).
  assert (H2 : PlayfairCipher.transform_loop pf_demo (lit "encrypt") (lit "HI")
               = OK (lit "BM")) by (vm_compute; reflexivity).
  assert (H3 : absent pf_demo "J"%char \/ absent pf_demo "O"%char)
    by (left; exact pf_demo_no_J).
  split; [exact H1 |]. split; [exact H2 |]. split; [exact H3 |].
  exact (playfair_absent_char_raises_TypeError pf_demo (lit "hi, joe")
           (lit "encrypt") (lit "HI") (lit "EX") (lit "BM")
           "J"%char "O"%char H1 H2 H3).
Defined.

(** C7, as the specification has it, fails: on the matrix of the key ["1"]
    the letter ['A'] is outside the matrix, and [transform] raises
    [TypeError], not an error of a class [InvalidCharacter]. *)
Lemma playfair_absent_char_not_InvalidCharacter :
  exists self,
    PlayfairCipher.init (lit "1") = OK self /\
    absent self "A"%char /\
    PlayfairCipher.process_text (lit "AB") = lit "AB" /\
    PlayfairCipher.find_positions self "A"%char = OK (None, None) /\
    PlayfairCipher.transform self (lit "AB") (lit "encrypt")
    = Raise TypeError /\
    PlayfairCipher.transform self (lit "AB") (lit "encrypt")
    <> Raise (PyExc "InvalidCharacter").
Proof.
  eexists. split; [vm_compute; reflexivity |].
  split.
  - intros row Hrow Hin. cbn in Hrow. destruct Hrow as [<- | []].
    cbn in Hin. destruct Hin as [H | []]. discriminate.
  - split; [vm_compute; reflexivity |].
    split; [vm_compute; reflexivity |].
    split; [vm_compute; reflexivity |].
    vm_compute. discriminate.
Qed.

(** ** [sorted] does not depend on the order of its argument *)

Lemma insert_by_sorted {A : Type} (k : Z) (x : A) (l : list (Z * A)) :
  StronglySorted key_le l -> StronglySorted key_le (insert_by k x l).
Proof.
  induction l as [| [k' y] l IH]; intros Hs.
  - constructor; constructor.
  - cbn [insert_by]. apply StronglySorted_inv in Hs. destruct Hs as [Hs Hall].
    destruct (Z.leb_spec k k') as [Hle | Hlt].
    + constructor; [constructor; assumption |].
      constructor; [exact Hle |].
      rewrite Forall_forall in Hall |- *. intros b Hb.
      specialize (Hall b Hb). unfold key_le in *. cbn [fst] in *. lia.
    + constructor; [apply IH; exact Hs |].
      rewrite Forall_forall in Hall |- *. intros b Hb.
      apply (Permutation_in _ (insert_by_perm k x l)) in Hb.
      destruct Hb as [<- | Hb]; [| apply Hall; exact Hb].
      unfold key_le. cbn [fst]. lia.
Qed.

Lemma sort_keyed_sorted {A : Type} (l : list (Z * A)) :
  StronglySorted key_le (sort_keyed l).
Proof.
  induction l as [| [k x] l IH]; [constructor |].
  cbn [sort_keyed fold_right fst snd]. apply insert_by_sorted. exact IH.
Qed.

(** Two sorted rearrangements of one list are equal when equal keys come
    with equal elements. *)
Lemma sorted_unique {A : Type} (l1 : list (Z * A)) :
  forall l2,
    StronglySorted key_le l1 -> StronglySorted key_le l2 ->
    Permutation l1 l2 ->
    (forall a b, In a l1 -> In b l1 -> fst a = fst b -> a = b) ->
    l1 = l2.
Proof.
  induction l1 as [| a l1 IH]; intros l2 H1 H2 HP Hinj.
  - symmetry. apply Permutation_nil. exact HP.
  - destruct l2 as [| b l2];
      [apply Permutation_sym, Permutation_nil in HP; discriminate |].
    apply StronglySorted_inv in H1. destruct H1 as [H1 Ha].
    apply StronglySorted_inv in H2. destruct H2 as [H2 Hb].
    rewrite Forall_forall in Ha, Hb.
    assert (Hab : In a (b :: l2))
      by (apply (Permutation_in _ HP); left; reflexivity).
    assert (Hba : In b (a :: l1))
      by (apply (Permutation_in _ (Permutation_sym HP)); left; reflexivity).
    assert (Heq : a = b).
    { apply Hinj; [left; reflexivity | exact Hba |].
      destruct Hab as [-> | Hab]; [reflexivity |].
      destruct Hba as [-> | Hba]; [reflexivity |].
      specialize (Ha b Hba). specialize (Hb a Hab). unfold key_le in *. lia. }
    subst b. f_equal. apply IH; [exact H1 | exact H2 | |].
    + apply (Permutation_cons_inv HP).
    + intros c d Hc Hd. apply Hinj; right; assumption.
Qed.

Lemma map_result_OK {A B : Type} (f : A -> result B) (l : list A)
      (ys : list B) :
  map_result f l = OK ys ->
  List.length ys = List.length l /\ forall x, In x l -> exists y, f x = OK y.
Proof.
  revert ys. induction l as [| x l IH]; intros ys H.
  - injection H as <-. split; [reflexivity | contradiction].
  - cbn [map_result] in H. destruct (f x) as [y | e] eqn:Ex;
      cbn [bind] in H; [| discriminate].
    destruct (map_result f l) as [ys' | e]; cbn [bind] in H; [| discriminate].
    injection H as <-. destruct (IH ys' eq_refl) as [Hlen Hall].
    split; [simpl; congruence |].
    intros z [<- | Hz]; [exists y; exact Ex | apply Hall; exact Hz].
Qed.

Lemma map_result_Raise {A B : Type} (f : A -> result B) (l : list A)
      (e : exn) :
  map_result f l = Raise e -> exists x, In x l /\ f x = Raise e.
Proof.
  induction l as [| x l IH]; intros H; [discriminate |].
  cbn [map_result] in H. destruct (f x) as [y | e'] eqn:Ex; cbn [bind] in H.
  - destruct (map_result f l) as [ys | e'']; cbn [bind] in H; [discriminate |].
    injection H as <-. destruct (IH eq_refl) as (z & Hz & Hfz).
    exists z. split; [right; exact Hz | exact Hfz].
  - injection H as <-. exists x. split; [left; reflexivity | exact Ex].
Qed.

Lemma combine_keys {A : Type} (f : A -> result Z) (l : list A)
      (keys : list Z) :
  map_result f l = OK keys ->
  combine keys l = map (fun x => (key_of f x, x)) l.
Proof.
  revert keys. induction l as [| x l IH]; intros keys H.
  - injection H as <-. reflexivity.
  - cbn [map_result] in H. destruct (f x) as [k | e] eqn:Ex;
      cbn [bind] in H; [| discriminate].
    destruct (map_result f l) as [ks | e]; cbn [bind] in H; [| discriminate].
    injection H as <-. cbn [combine map]. rewrite (IH ks eq_refl).
    unfold key_of at 2. rewrite Ex. reflexivity.
Qed.

Lemma sorted_by_perm {A : Type} (f : A -> result Z) (e0 : exn)
      (l l' : list A) :
  (forall x e, f x = Raise e -> e = e0) ->
  (forall x y k, f x = OK k -> f y = OK k -> x = y) ->
  Permutation l l' ->
  sorted_by f l = sorted_by f l'.
Proof.
  intros Hraise Hinj HP. unfold sorted_by.
  destruct (map_result f l) as [keys | e] eqn:E1;
    destruct (map_result f l') as [keys' | e'] eqn:E2; cbn [bind].
  - rewrite (combine_keys f l keys E1), (combine_keys f l' keys' E2).
    do 2 f_equal. apply sorted_unique.
    + apply sort_keyed_sorted.
    + apply sort_keyed_sorted.
    + rewrite !sort_keyed_perm. apply Permutation_map. exact HP.
    + intros a b Ha Hb Hk.
      apply (Permutation_in _ (sort_keyed_perm _)) in Ha, Hb.
      apply in_map_iff in Ha, Hb.
      destruct Ha as (x & <- & Hx). destruct Hb as (y & <- & Hy).
      cbn [fst] in Hk.
      destruct (proj2 (map_result_OK f l keys E1) x Hx) as (k & Hfx).
      destruct (proj2 (map_result_OK f l keys E1) y Hy) as (k' & Hfy).
      unfold key_of in Hk. rewrite Hfx, Hfy in Hk. subst k'.
      rewrite (Hinj x y k Hfx Hfy). reflexivity.
  - destruct (map_result_Raise f l' e' E2) as (x & Hx & Hfx).
    apply (Permutation_in _ (Permutation_sym HP)) in Hx.
    destruct (proj2 (map_result_OK f l keys E1) x Hx) as (k & Hk).
    congruence.
  - destruct (map_result_Raise f l e E1) as (x & Hx & Hfx).
    apply (Permutation_in _ HP) in Hx.
    destruct (proj2 (map_result_OK f l' keys' E2) x Hx) as (k & Hk).
    congruence.
  - destruct (map_result_Raise f l e E1) as (x & _ & Hfx).
    destruct (map_result_Raise f l' e' E2) as (y & _ & Hfy).
    rewrite (Hraise x e Hfx), (Hraise y e' Hfy). reflexivity.
Qed.

Lemma index_nth (x : ascii) (s : str) (i : Z) :
  index x s = OK i -> 0 <= i /\ nth_error s (Z.to_nat i) = Some x.
Proof.
  revert i. induction s as [| c s IH]; intros i H; [discriminate |].
  cbn [index] in H. destruct (Ascii.eqb_spec c x) as [-> | Hne].
  - injection H as <-. split; [lia | reflexivity].
  - destruct (index x s) as [j | e]; cbn [bind] in H; [| discriminate].
    injection H as <-. destruct (IH j eq_refl) as [Hj Hn].
    split; [lia |]. rewrite Z2Nat.inj_add by lia.
    rewrite Nat.add_1_r. exact Hn.
Qed.

(** Sorting characters by their position in a string gives the same result
    for every enumeration of the characters: the order in which a Python
    set is iterated does not matter to the two constructors. *)
Lemma sorted_by_order_irrelevant (s : str) (l l' : list ascii) :
  Permutation l l' ->
  sorted_by (fun x => index x s) l = sorted_by (fun x => index x s) l'.
Proof.
  apply (sorted_by_perm _ ValueError).
  - intros x e H. apply (index_raises _ _ _ H).
  - intros x y k Hx Hy. apply index_nth in Hx, Hy.
    destruct Hx as [_ Hx]. destruct Hy as [_ Hy]. congruence.
Qed.

(** ** Playfair: what a constructed cipher can transform *)

Lemma sorted_by_OK_perm {A : Type} (f : A -> result Z) (l out : list A) :
  sorted_by f l = OK out -> Permutation out l.
Proof.
  unfold sorted_by. destruct (map_result f l) as [keys |] eqn:E;
    cbn [bind]; intros H; [| discriminate].
  injection H as <-. rewrite sort_keyed_perm.
  rewrite map_snd_combine; [reflexivity |].
  apply (map_result_OK f l keys E).
Qed.

Lemma slice_In {A : Type} (s : list A) (i j : Z) (x : A) :
  In x (slice s i j) -> In x s.
Proof.
  unfold slice. intros H.
  rewrite <- (firstn_skipn (Z.to_nat i) s). apply in_or_app. right.
  rewrite <- (firstn_skipn (Z.to_nat (j - i)) (skipn (Z.to_nat i) s)).
  apply in_or_app. left. exact H.
Qed.

Lemma filter_none {A : Type} (f : A -> bool) (l : list A) :
  (forall x, In x l -> f x = false) -> filter f l = [].
Proof.
  induction l as [| x l IH]; intros H; [reflexivity |].
  cbn [filter]. rewrite (H x (or_introl eq_refl)).
  apply IH. intros y Hy. apply H. right; exact Hy.
Qed.

Lemma upper_str_fixed (c : ascii) : isalpha c = false -> upper_str c = [c].
Proof.
  destruct c as [[] [] [] [] [] [] [] []]; vm_compute; intros H;
    solve [reflexivity | discriminate].
Qed.

Lemma not_alpha_not_upper (c : ascii) : isalpha c = false -> isupper c = false.
Proof.
  destruct c as [[] [] [] [] [] [] [] []]; vm_compute; intros H;
    solve [reflexivity | discriminate].
Qed.

Lemma is_upper_isalpha (c : ascii) : is_upper c = true -> isalpha c = true.
Proof.
  destruct c as [[] [] [] [] [] [] [] []]; vm_compute; intros H;
    solve [reflexivity | discriminate].
Qed.

(** A string without alphabetic characters has one case. *)
Lemma no_letter_fixed (s : str) :
  (forall c, In c s -> isalpha c = false) -> upper s = s /\ lower s = s.
Proof.
  intros H. split.
  - induction s as [| c s IH]; [reflexivity |].
    rewrite upper_cons, (upper_str_fixed c (H c (or_introl eq_refl))).
    cbn [app]. f_equal. apply IH. intros d Hd. apply H. right; exact Hd.
  - unfold lower. rewrite <- (map_id s) at 2. apply map_ext_in. intros c Hc.
    apply lower_char_fixed, not_alpha_not_upper. apply H; exact Hc.
Qed.

Lemma playfair_init_no_letter (key0 : str) :
  (forall c, In c key0 -> isalpha c = false) ->
  exists self, PlayfairCipher.init key0 = OK self.
Proof.
  intros H. destruct (no_letter_fixed key0 H) as [Hu Hl].
  unfold PlayfairCipher.init. rewrite Hu, Hl.
  destruct (sorted_by_total (fun x => index x key0) (set_of key0))
    as (out & Hout & _).
  - intros x Hx. unfold set_of in Hx. apply nodup_In in Hx.
    destruct (index_in x key0 Hx) as (i & Hi & _). exists i; exact Hi.
  - rewrite Hout. cbn [bind]. eexists; reflexivity.
Qed.

Lemma existsb_false_forall (f : ascii -> bool) (s : str) :
  existsb f s = false -> forall c, In c s -> f c = false.
Proof.
  intros H c Hc. destruct (f c) eqn:E; [| reflexivity].
  assert (Ht : existsb f s = true) by (apply existsb_exists; eauto).
  congruence.
Qed.

(** For an ASCII key the constructor returns only when the key has no
    letter, and the matrix it builds has no letter either. *)
Lemma playfair_init_OK (key0 : str) (self : PlayfairCipher.t) :
  Forall (fun c => is_ascii c = true) key0 ->
  PlayfairCipher.init key0 = OK self ->
  (forall c, In c key0 -> isalpha c = false) /\
  (forall row c,
      In row (PlayfairCipher.key_matrix self) -> In c row ->
      isalpha c = false).
Proof.
  intros Hascii Hinit.
  assert (Hkey : forall c, In c key0 -> isalpha c = false).
  { intros c Hc. destruct (isalpha c) eqn:E; [| reflexivity].
    rewrite Forall_forall in Hascii.
    rewrite (ascii_isalpha c (Hascii c Hc)) in E.
    rewrite (playfair_init_letter_raises key0 c Hc E) in Hinit.
    discriminate. }
  split; [exact Hkey |].
  destruct (no_letter_fixed key0 Hkey) as [Hu Hl].
  unfold PlayfairCipher.init in Hinit. rewrite Hu, Hl in Hinit.
  destruct (sorted_by (fun x => index x key0) (set_of key0))
    as [sorted_key | e] eqn:Es; cbn [bind] in Hinit; [| discriminate].
  apply (f_equal (fun r => match r with
                           | OK s => PlayfairCipher.key_matrix s
                           | Raise _ => []
                           end)) in Hinit.
  cbn [PlayfairCipher.key_matrix] in Hinit. rewrite <- Hinit.
  intros row c Hrow Hc. apply in_map_iff in Hrow.
  destruct Hrow as (i & <- & _). apply slice_In in Hc.
  apply (Permutation_in _ (sorted_by_OK_perm _ _ _ Es)) in Hc.
  unfold set_of in Hc. apply nodup_In in Hc. apply Hkey. exact Hc.
Qed.

(** Every cipher that the constructor returns for an ASCII key raises
    [TypeError] on an ASCII text with a letter, and returns the empty
    string on an ASCII text without one. *)
Lemma playfair_constructed_transform (key0 text mode : str)
      (self : PlayfairCipher.t) :
  Forall (fun c => is_ascii c = true) key0 ->
  Forall (fun c => is_ascii c = true) text ->
  PlayfairCipher.init key0 = OK self ->
  PlayfairCipher.transform self text mode
  = if existsb isalpha text then Raise TypeError else OK [].
Proof.
  intros Hk Ht Hinit.
  destruct (playfair_init_OK key0 self Hk Hinit) as [_ Hrows].
  unfold PlayfairCipher.transform.
  pose proof (process_text_upper text Ht) as Hup.
  pose proof (process_text_even text) as Hev.
  rewrite transform_loop_pairs.
  destruct (existsb isalpha text) eqn:Ex.
  - destruct (PlayfairCipher.process_text text) as [| c1 [| c2 rest]] eqn:Ep.
    + exfalso. rewrite process_text_refines in Ep.
      unfold process_text_spec in Ep.
      apply existsb_exists in Ex. destruct Ex as (c & Hc & Ha).
      assert (Hin : In (upper_char c) (upper (filter isalpha text))).
      { unfold upper. apply in_flat_map. exists c.
        split; [apply filter_In; split; assumption |].
        rewrite Forall_forall in Ht.
        rewrite (ascii_isalpha c (Ht c Hc)) in Ha.
        rewrite (letter_upper_str c Ha). left; reflexivity. }
      destruct (Nat.odd _) in Ep.
      * destruct (upper (filter isalpha text)); discriminate.
      * rewrite Ep in Hin. contradiction.
    + discriminate.
    + cbn [pairs_loop]. rewrite pair_step_absent; [reflexivity |].
      left. intros row Hrow Hin.
      apply Forall_inv in Hup. apply is_upper_isalpha in Hup.
      rewrite (Hrows row c1 Hrow Hin) in Hup. discriminate.
  - rewrite process_text_refines. unfold process_text_spec.
    rewrite (filter_none isalpha text (existsb_false_forall _ _ Ex)).
    reflexivity.
Qed.

(** ** The command line: what each algorithm can print *)

(** X1. On an ASCII key and an ASCII text the script with algorithm
    [Playfair] never prints a ciphertext: it raises [ValueError] when the
    key has a letter, otherwise [TypeError] when the text has a letter, and
    otherwise prints an empty line. *)
Theorem main_playfair (key text mode : str) :
  Forall (fun c => is_ascii c = true) key ->
  Forall (fun c => is_ascii c = true) text ->
  Main.main (lit "Playfair") key text mode
  = if existsb is_letter key then Raise ValueError
    else if existsb is_letter text then Raise TypeError
    else OK ["010"%char].
Proof.
  intros Hk Ht.
  assert (Hex : forall s, Forall (fun c => is_ascii c = true) s ->
                          existsb is_letter s = existsb isalpha s).
  { intros s0 Hs. induction Hs as [| c s0 Hc _ IH]; [reflexivity |].
    cbn [existsb]. rewrite IH, (ascii_isalpha c Hc). reflexivity. }
  rewrite (Hex key Hk), (Hex text Ht).
  unfold Main.main.
  change (str_eqb (lit "Playfair") (lit "Playfair")) with true. cbv iota.
  destruct (existsb isalpha key) eqn:Ek.
  - apply existsb_exists in Ek. destruct Ek as (c & Hc & Ha).
    rewrite Forall_forall in Hk. rewrite (ascii_isalpha c (Hk c Hc)) in Ha.
    rewrite (playfair_init_letter_raises key c Hc Ha). reflexivity.
  - destruct (playfair_init_no_letter key (existsb_false_forall _ _ Ek))
      as (self & Hself).
    rewrite Hself. cbn [bind Main.call_transform].
    rewrite (playfair_constructed_transform key text mode self Hk Ht Hself).
    destruct (existsb isalpha text); reflexivity.
Qed.

Lemma main_playfair_witness :
  Forall (fun c => is_ascii c = true) (lit "12;") /\
  Forall (fun c => is_ascii c = true) (lit "hello") /\
  Main.main (lit "Playfair") (lit "12;") (lit "hello") (lit "encrypt")
  = Raise TypeError.
Proof.
  assert (Hk : Forall (fun c => is_ascii c = true) (lit "12;"))
    by (repeat constructor).
  assert (Ht : Forall (fun c => is_ascii c = true) (lit "hello"))
    by (repeat constructor).
  split; [exact Hk |]. split; [exact Ht |].
  rewrite (main_playfair (lit "12;") (lit "hello") (lit "encrypt") Hk Ht).
  reflexivity.
Defined.

(** X2. The script with algorithm [RailFence] always fails, whatever the
    key, the text and the mode: the object it builds has no [transform]
    method, although its [encrypt] and [decrypt] would return a string on
    the text. *)
Theorem main_railfence (key text mode : str) :
  Main.main (lit "RailFence") key text mode = Raise AttributeError /\
  (exists out, RailFence.encrypt (RailFence.init 2) text = OK out) /\
  (exists out, RailFence.decrypt (RailFence.init 2) text = OK out).
Proof.
  assert (HR : 2 <= RailFence.rails (RailFence.init 2)) by (simpl; lia).
  split; [reflexivity |]. split.
  - destruct (encrypt_length (RailFence.init 2) text HR) as (out & Hout & _).
    exists out. exact Hout.
  - eexists. apply (decrypt_spaces (RailFence.init 2) text HR).
Qed.

(** ** Substitution: what [transform] computes *)

Lemma index_getitem (x : ascii) (s : str) (i : Z) :
  index x s = OK i -> getitem s i = OK x.
Proof.
  intros H. destruct (index_nth x s i H) as [Hi Hn].
  apply getitem_nth; assumption.
Qed.

Lemma substitute_step (self : Substitution.t) (acc : str) (ch : ascii) :
  len (Substitution.alphabet self) <= len (Substitution.key self) ->
  Substitution.transform_body self acc ch = OK (acc ++ [substitute self ch]).
Proof.
  intros Hlen. unfold Substitution.transform_body, substitute.
  destruct (contains ch (Substitution.alphabet self)) eqn:Ec; [| reflexivity].
  apply contains_In in Ec.
  destruct (index_in ch _ Ec) as (i & Hi & Hb). rewrite Hi. cbn [bind].
  destruct (getitem_in (Substitution.key self) i) as (k & Hk & _); [lia |].
  rewrite Hk. reflexivity.
Qed.

Lemma substitute_loop (self : Substitution.t) (text : str) :
  len (Substitution.alphabet self) <= len (Substitution.key self) ->
  forall acc,
    for_each (Substitution.transform_body self) text acc
    = OK (acc ++ map (substitute self) text).
Proof.
  intros Hlen. induction text as [| ch text IH]; intros acc.
  - cbn [for_each map]. rewrite app_nil_r. reflexivity.
  - cbn [for_each map]. rewrite (substitute_step self acc ch Hlen).
    cbn [bind]. rewrite IH, <- app_assoc. reflexivity.
Qed.

(** Every constructed object substitutes character by character. *)
Lemma substitution_transform_map (password text mode : str)
      (self : Substitution.t) :
  Substitution.init password = OK self ->
  Substitution.alphabet self = lit "abcdefghijklmnopqrstuvwxyz" /\
  Substitution.transform self text mode = OK (map (substitute self) text).
Proof.
  intros Hinit.
  destruct (init_succeeds password) as (head & _ & Hperm & Heq).
  pose proof (key_length password head Hperm) as Hlen.
  rewrite Heq in Hinit.
  assert (Hal : Substitution.alphabet self = lit "abcdefghijklmnopqrstuvwxyz").
  { apply (f_equal (fun r => match r with
                             | OK s => Substitution.alphabet s
                             | Raise _ => []
                             end)) in Hinit.
    cbn [Substitution.alphabet] in Hinit. symmetry; exact Hinit. }
  assert (Hk : Substitution.key self
               = head ++ filter (fun ch => negb (contains ch password))
                                (lit "abcdefghijklmnopqrstuvwxyz")).
  { apply (f_equal (fun r => match r with
                             | OK s => Substitution.key s
                             | Raise _ => []
                             end)) in Hinit.
    cbn [Substitution.key] in Hinit. symmetry; exact Hinit. }
  split; [exact Hal |].
  unfold Substitution.transform. rewrite substitute_loop; [reflexivity |].
  rewrite Hal, Hk.
  replace (len (lit "abcdefghijklmnopqrstuvwxyz")) with 26 by reflexivity.
  unfold len. lia.
Qed.

Lemma substitute_not_lower (self : Substitution.t) (ch : ascii) :
  Substitution.alphabet self = lit "abcdefghijklmnopqrstuvwxyz" ->
  is_lower ch = false -> substitute self ch = ch.
Proof.
  intros Hal Hlo. unfold substitute. rewrite Hal, <- is_lower_alphabet, Hlo.
  reflexivity.
Qed.

(** X3. [Substitution(password).transform] returns, for every password,
    text and mode, a string as long as the text in which every character
    that is not a lowercase letter stands unchanged at its place. *)
Theorem substitution_transform_shape (password text mode : str) :
  exists self out,
    Substitution.init password = OK self /\
    Substitution.transform self text mode = OK out /\
    List.length out = List.length text /\
    (forall i c, nth_error text i = Some c -> is_lower c = false ->
                 nth_error out i = Some c).
Proof.
  destruct (init_succeeds password) as (head & _ & _ & Heq).
  destruct (substitution_transform_map password text mode _ Heq)
    as [Hal Htr].
  eexists. eexists. split; [exact Heq |]. split; [exact Htr |].
  split; [apply length_map |].
  intros i c Hi Hlo. rewrite nth_error_map, Hi. cbn [option_map].
  rewrite (substitute_not_lower _ c Hal Hlo). reflexivity.
Qed.

(** X4. The script with algorithm [Substitution] always prints a line, as
    long as the text. *)
Theorem main_substitution (key text mode : str) :
  exists out,
    Main.main (lit "Substitution") key text mode = OK (out ++ ["010"%char]) /\
    List.length out = List.length text.
Proof.
  destruct (init_succeeds key) as (head & _ & _ & Heq).
  destruct (substitution_transform_map key text mode _ Heq) as [_ Htr].
  exists (map (substitute
                 {| Substitution.alphabet := lit "abcdefghijklmnopqrstuvwxyz";
                    Substitution.key :=
                      head ++ filter (fun ch => negb (contains ch key))
                                     (lit "abcdefghijklmnopqrstuvwxyz") |})
              text).
  split; [| apply length_map].
  unfold Main.main.
  change (str_eqb (lit "Substitution") (lit "Playfair")) with false.
  change (str_eqb (lit "Substitution") (lit "RailFence")) with false.
  change (str_eqb (lit "Substitution") (lit "Substitution")) with true.
  cbv iota. rewrite Heq. cbn [bind Main.call_transform].
  rewrite Htr. reflexivity.
Qed.

(** X5. With the empty password the key is the alphabet and [transform]
    returns every text unchanged, in both modes. *)
Theorem substitution_empty_password_identity (text mode : str) :
  (self <- Substitution.init [] ;; Substitution.transform self text mode)
  = OK text.
Proof.
  assert (Hinit : Substitution.init [] = OK sb_demo)
    by (vm_compute; reflexivity).
  rewrite Hinit. cbn [bind].
  destruct (substitution_transform_map [] text mode sb_demo Hinit)
    as [Hal Htr].
  rewrite Htr. f_equal. rewrite <- (map_id text) at 2.
  apply map_ext. intros ch. unfold substitute.
  destruct (contains ch (Substitution.alphabet sb_demo)) eqn:Ec;
    [| reflexivity].
  apply contains_In in Ec. destruct (index_in ch _ Ec) as (i & Hi & _).
  rewrite Hi. change (Substitution.key sb_demo)
    with (Substitution.alphabet sb_demo).
  rewrite (index_getitem _ _ _ Hi). reflexivity.
Qed.

(** ** The order that [sorted] gives the key *)

Lemma NoDup_keyed {A : Type} (g : A -> Z) (l : list A) :
  NoDup l -> NoDup (map (fun x => (g x, x)) l).
Proof.
  induction 1 as [| x l Hnin Hnd IH]; cbn [map]; constructor; [| exact IH].
  intros Hin. apply in_map_iff in Hin. destruct Hin as (y & Heq & Hy).
  injection Heq as _ ->. contradiction.
Qed.

Lemma keyed_strict (s : str) (L : list (Z * ascii)) :
  StronglySorted key_le L -> NoDup L ->
  Forall (fun p => index (snd p) s = OK (fst p)) L ->
  StronglySorted (first_before s) (map snd L).
Proof.
  induction 1 as [| p L Hs IH Hall]; intros Hnd Hk; cbn [map];
    constructor.
  - apply IH; [inversion Hnd; assumption | inversion Hk; assumption].
  - apply Forall_forall. intros b Hb. apply in_map_iff in Hb.
    destruct Hb as (q & <- & Hq).
    rewrite Forall_forall in Hall. specialize (Hall q Hq).
    inversion Hk as [| p' L' Hp HL]; subst.
    rewrite Forall_forall in HL. specialize (HL q Hq).
    exists (fst p), (fst q). split; [exact Hp |]. split; [exact HL |].
    unfold key_le in Hall.
    destruct (Z.eq_dec (fst p) (fst q)) as [Heq | Hne]; [| lia].
    exfalso. inversion Hnd as [| p' L' Hnin _]; subst. apply Hnin.
    rewrite Heq in Hp. apply index_nth in Hp, HL.
    destruct Hp as [_ Hp]. destruct HL as [_ HL].
    assert (Hsnd : snd p = snd q) by congruence.
    destruct p, q; cbn [fst snd] in *; subst. exact Hq.
Qed.

(** Sorting distinct characters by their position in [s] puts them in the
    order of their first appearance in [s]. *)
Lemma sorted_by_first_appearance (s : str) (l out : list ascii) :
  NoDup l ->
  sorted_by (fun x => index x s) l = OK out ->
  Permutation out l /\ NoDup out /\ StronglySorted (first_before s) out.
Proof.
  intros Hnd Hs.
  pose proof (sorted_by_OK_perm _ _ _ Hs) as Hperm.
  split; [exact Hperm |].
  split; [apply (Permutation_NoDup (Permutation_sym Hperm)); exact Hnd |].
  unfold sorted_by in Hs.
  destruct (map_result (fun x => index x s) l) as [keys | e] eqn:E;
    cbn [bind] in Hs; [| discriminate].
  injection Hs as <-. rewrite (combine_keys _ l keys E).
  set (pair := fun x => (key_of (fun x0 => index x0 s) x, x)).
  apply keyed_strict.
  - apply sort_keyed_sorted.
  - apply (Permutation_NoDup (Permutation_sym (sort_keyed_perm _))).
    apply NoDup_keyed. exact Hnd.
  - apply Forall_forall. intros p Hp.
    apply (Permutation_in _ (sort_keyed_perm _)) in Hp.
    apply in_map_iff in Hp. destruct Hp as (x & <- & Hx).
    subst pair. cbn [fst snd].
    destruct (proj2 (map_result_OK _ l keys E) x Hx) as (k & Hk).
    unfold key_of. rewrite Hk. reflexivity.
Qed.

(** X6. The key that [Substitution.__init__] builds, for every password:
    first the distinct characters of the lowercased password other than the
    space, in the order of their first appearance, then the lowercase
    letters that are not in the password as it was given, in alphabetical
    order; every lowercase letter is in it. *)
Theorem substitution_init_key (password : str) :
  exists self head,
    Substitution.init password = OK self /\
    Substitution.key self
    = head ++ filter (fun ch => negb (contains ch password))
                     (lit "abcdefghijklmnopqrstuvwxyz") /\
    NoDup head /\
    (forall c, In c head <-> In c (lower password) /\ c <> " "%char) /\
    StronglySorted (first_before (lower password)) head /\
    (forall ch, In ch (lit "abcdefghijklmnopqrstuvwxyz") ->
                In ch (Substitution.key self)).
Proof.
  destruct (init_succeeds password) as (head & Hsort & Hperm & Heq).
  destruct (sorted_by_first_appearance _ _ _ (NoDup_nodup ascii_dec _) Hsort)
    as (_ & Hnd & Hord).
  assert (Hhead : forall c, In c head <-> In c (lower password) /\ c <> " "%char).
  { intros c. rewrite (Permutation_in' (eq_refl c) Hperm).
    unfold set_of. rewrite nodup_In. unfold remove_char.
    rewrite filter_In, negb_true_iff. split; intros [H1 H2]; split; auto;
      apply Ascii.eqb_neq; exact H2. }
  eexists. exists head. split; [exact Heq |]. cbn [Substitution.key].
  split; [reflexivity |]. split; [exact Hnd |]. split; [exact Hhead |].
  split; [exact Hord |].
  intros ch Hch. apply in_or_app.
  destruct (contains ch password) eqn:Ec.
  - left. apply (Permutation_in _ (Permutation_sym Hperm)).
    apply letters_in_head; assumption.
  - right. apply filter_In. split; [exact Hch |]. rewrite Ec. reflexivity.
Qed.

(** ** Substitution with a lowercase password *)

Lemma map_injective {A B : Type} (f : A -> B) (l1 l2 : list A) :
  (forall x y, f x = f y -> x = y) -> map f l1 = map f l2 -> l1 = l2.
Proof.
  intros Hinj. revert l2. induction l1 as [| x l1 IH]; intros [| y l2] H;
    try discriminate; [reflexivity |].
  cbn [map] in H. injection H as Hxy Hrest.
  rewrite (Hinj x y Hxy), (IH l2 Hrest). reflexivity.
Qed.

Lemma substitute_letter (self : Substitution.t) (ch : ascii) :
  len (Substitution.alphabet self) <= len (Substitution.key self) ->
  In ch (Substitution.alphabet self) ->
  exists i,
    index ch (Substitution.alphabet self) = OK i /\
    nth_error (Substitution.key self) (Z.to_nat i)
    = Some (substitute self ch).
Proof.
  intros Hlen Hin. unfold substitute.
  pose proof (proj2 (contains_In ch _) Hin) as Hc. rewrite Hc.
  destruct (index_in ch _ Hin) as (i & Hi & Hb). rewrite Hi.
  exists i. split; [reflexivity |].
  destruct (nth_error (Substitution.key self) (Z.to_nat i)) as [k |] eqn:En.
  - rewrite (getitem_nth _ i k (proj1 Hb) En). reflexivity.
  - apply nth_error_None in En. unfold len in *. lia.
Qed.

Lemma substitute_injective (self : Substitution.t) :
  Permutation (Substitution.key self) (Substitution.alphabet self) ->
  NoDup (Substitution.alphabet self) ->
  forall x y, substitute self x = substitute self y -> x = y.
Proof.
  intros Hperm Hnd x y Hxy.
  assert (Hlen : len (Substitution.alphabet self)
                 <= len (Substitution.key self))
    by (unfold len; rewrite (Permutation_length Hperm); lia).
  assert (Hkd : NoDup (Substitution.key self))
    by (apply (Permutation_NoDup (Permutation_sym Hperm)); exact Hnd).
  assert (Himg : forall c, In c (Substitution.alphabet self) ->
                           In (substitute self c) (Substitution.alphabet self)).
  { intros c Hc. destruct (substitute_letter self c Hlen Hc) as (i & _ & Hn).
    apply (Permutation_in _ Hperm). eapply nth_error_In; exact Hn. }
  assert (Hout : forall c, ~ In c (Substitution.alphabet self) ->
                           substitute self c = c).
  { intros c Hc. unfold substitute.
    destruct (contains c (Substitution.alphabet self)) eqn:E;
      [apply contains_In in E; contradiction | reflexivity]. }
  destruct (in_dec ascii_dec x (Substitution.alphabet self)) as [Hx | Hx];
    destruct (in_dec ascii_dec y (Substitution.alphabet self)) as [Hy | Hy].
  - destruct (substitute_letter self x Hlen Hx) as (i & Hi & Hni).
    destruct (substitute_letter self y Hlen Hy) as (j & Hj & Hnj).
    assert (Hij : Z.to_nat i = Z.to_nat j).
    { apply (proj1 (NoDup_nth_error _) Hkd).
      - apply nth_error_Some. rewrite Hni. discriminate.
      - rewrite Hni, Hnj, Hxy. reflexivity. }
    apply index_nth in Hi, Hj. destruct Hi as [_ Hi]. destruct Hj as [_ Hj].
    rewrite Hij in Hi. congruence.
  - exfalso. apply Hy. rewrite <- (Hout y Hy), <- Hxy. apply Himg; exact Hx.
  - exfalso. apply Hx. rewrite <- (Hout x Hx), Hxy. apply Himg; exact Hy.
  - rewrite <- (Hout x Hx), <- (Hout y Hy). exact Hxy.
Qed.

(** X7. For a password made of lowercase letters and spaces the key is a
    rearrangement of the alphabet, and [transform] loses nothing: two texts
    with the same output are the same text. *)
Theorem substitution_lowercase_password
        (password t1 t2 m1 m2 : str) (self : Substitution.t) :
  Forall (fun c => is_lower c = true \/ c = " "%char) password ->
  Substitution.init password = OK self ->
  Permutation (Substitution.key self) (lit "abcdefghijklmnopqrstuvwxyz") /\
  (Substitution.transform self t1 m1 = Substitution.transform self t2 m2 ->
   t1 = t2).
Proof.
  intros Hpw Hinit.
  pose proof (substitution_key_lowercase_password password self Hpw Hinit)
    as Hperm.
  split; [exact Hperm |].
  destruct (substitution_transform_map password t1 m1 self Hinit)
    as [Hal H1].
  destruct (substitution_transform_map password t2 m2 self Hinit)
    as [_ H2].
  rewrite H1, H2. intros Heq. injection Heq as Heq.
  apply (map_injective (substitute self)); [| exact Heq].
  apply substitute_injective; rewrite Hal;
    [exact Hperm | apply alphabet_NoDup].
Qed.

Lemma substitution_lowercase_password_witness :
  Forall (fun c => is_lower c = true \/ c = " "%char) (lit "key word") /\
  Substitution.init (lit "key word")
  = OK {| Substitution.alphabet := lit "abcdefghijklmnopqrstuvwxyz";
          Substitution.key := lit "keywordabcfghijlmnpqstuvxz" |} /\
  Permutation (lit "keywordabcfghijlmnpqstuvxz")
              (lit "abcdefghijklmnopqrstuvwxyz").
Proof.
  assert (Hpw : Forall (fun c => is_lower c = true \/ c = " "%char)
                       (lit "key word")).
  { repeat constructor; solve [left; reflexivity | right; reflexivity]. }
  assert (Hinit : Substitution.init (lit "key word")
                  = OK {| Substitution.alphabet :=
                            lit "abcdefghijklmnopqrstuvwxyz";
                          Substitution.key :=
                            lit "keywordabcfghijlmnpqstuvxz" |})
    by (vm_compute; reflexivity).
  split; [exact Hpw |]. split; [exact Hinit |].
  exact (proj1 (substitution_lowercase_password (lit "key word") [] []
                  [] [] _ Hpw Hinit)).
Defined.

(** ** Playfair: [find_positions] *)

Lemma index_first (x : ascii) (s : str) (i : Z) :
  index x s = OK i -> ~ In x (firstn (Z.to_nat i) s).
Proof.
  revert i. induction s as [| c s IH]; intros i H; [discriminate |].
  cbn [index] in H. destruct (Ascii.eqb_spec c x) as [-> | Hne].
  - injection H as <-. cbn. tauto.
  - destruct (index x s) as [j | e] eqn:Ej; cbn [bind] in H; [| discriminate].
    injection H as <-. destruct (index_nth x s j Ej) as [Hj _].
    rewrite Z2Nat.inj_add by lia. rewrite Nat.add_1_r. cbn [firstn].
    intros [Heq | Hin]; [congruence | exact (IH j eq_refl Hin)].
Qed.

(** The scan of the rows, numbered from [off]: either no row holds the
    character, or the scan stops at the first row that does, with the first
    column of the character in that row. *)
Lemma find_in_rows_spec (char : ascii) (km : list str) :
  forall off : nat,
    (Forall (fun row => ~ In char row) km /\
     PlayfairCipher.find_in_rows
       (combine (map Z.of_nat (seq off (List.length km))) km) char
     = OK (None, None)) \/
    (exists j row k,
        nth_error km j = Some row /\ index char row = OK k /\
        Forall (fun row' => ~ In char row') (firstn j km) /\
        PlayfairCipher.find_in_rows
          (combine (map Z.of_nat (seq off (List.length km))) km) char
        = OK (Some (Z.of_nat (off + j)), Some k)).
Proof.
  induction km as [| row km IH]; intros off.
  - left. split; [constructor | reflexivity].
  - cbn [List.length seq map combine PlayfairCipher.find_in_rows].
    destruct (contains char row) eqn:Ec.
    + right. apply contains_In in Ec.
      destruct (index_in char row Ec) as (k & Hk & _).
      exists 0%nat, row, k. rewrite Hk, Nat.add_0_r.
      repeat split; constructor.
    + assert (Hrow : ~ In char row).
      { intros Hin. apply contains_In in Hin. congruence. }
      destruct (IH (S off)) as [[Hall Hf] | (j & row' & k & Hj & Hk & Hall & Hf)].
      * left. split; [constructor; assumption | exact Hf].
      * right. exists (S j), row', k.
        split; [exact Hj |]. split; [exact Hk |].
        split; [cbn [firstn]; constructor; assumption |].
        rewrite Hf. do 3 f_equal. lia.
Qed.

Lemma enumerate_seq {A : Type} (l : list A) :
  enumerate l = combine (map Z.of_nat (seq 0 (List.length l))) l.
Proof. unfold enumerate, range, len. rewrite Nat2Z.id. reflexivity. Qed.

Lemma find_positions_found (self : PlayfairCipher.t) (char : ascii) :
  (absent self char /\
   PlayfairCipher.find_positions self char = OK (None, None)) \/
  (exists j row k,
      nth_error (PlayfairCipher.key_matrix self) j = Some row /\
      index char row = OK k /\
      Forall (fun row' => ~ In char row')
             (firstn j (PlayfairCipher.key_matrix self)) /\
      PlayfairCipher.find_positions self char
      = OK (Some (Z.of_nat j), Some k)).
Proof.
  unfold PlayfairCipher.find_positions. rewrite enumerate_seq.
  destruct (find_in_rows_spec char (PlayfairCipher.key_matrix self) 0)
    as [[Hall Hf] | (j & row & k & Hj & Hk & Hall & Hf)].
  - left. split; [| exact Hf]. intros row Hrow.
    rewrite Forall_forall in Hall. apply Hall; exact Hrow.
  - right. exists j, row, k. auto.
Qed.

(** X8. [find_positions] never raises.  It returns [(None, None)] exactly
    for a character that no row holds; otherwise it returns a row and a
    column at which the matrix holds the character, the first such row and
    the first such column in it. *)
Theorem find_positions_spec (self : PlayfairCipher.t) (char : ascii) :
  (absent self char /\
   PlayfairCipher.find_positions self char = OK (None, None)) \/
  (present self char /\
   exists r k row,
     PlayfairCipher.find_positions self char = OK (Some r, Some k) /\
     getitem (PlayfairCipher.key_matrix self) r = OK row /\
     getitem row k = OK char /\
     0 <= r /\ 0 <= k /\
     Forall (fun row' => ~ In char row')
            (firstn (Z.to_nat r) (PlayfairCipher.key_matrix self)) /\
     ~ In char (firstn (Z.to_nat k) row)).
Proof.
  destruct (find_positions_found self char)
    as [H | (j & row & k & Hj & Hk & Hall & Hf)]; [left; exact H |].
  right. destruct (index_nth char row k Hk) as [Hk0 Hkn].
  split.
  - exists row. split; [eapply nth_error_In; exact Hj |].
    eapply nth_error_In; exact Hkn.
  - exists (Z.of_nat j), k, row. rewrite Nat2Z.id.
    split; [exact Hf |].
    split; [apply getitem_nth; [lia | rewrite Nat2Z.id; exact Hj] |].
    split; [apply index_getitem; exact Hk |].
    split; [lia |]. split; [exact Hk0 |].
    split; [exact Hall | apply index_first; exact Hk].
Qed.

(** ** Playfair: [process_text] once more *)

Lemma upper_str_upper (c : ascii) : is_upper c = true -> upper_str c = [c].
Proof.
  destruct c as [[] [] [] [] [] [] [] []]; vm_compute; intros H;
    solve [reflexivity | discriminate].
Qed.

Lemma filter_all {A : Type} (f : A -> bool) (l : list A) :
  Forall (fun x => f x = true) l -> filter f l = l.
Proof.
  induction 1 as [| x l Hx _ IH]; [reflexivity |].
  cbn [filter]. rewrite Hx, IH. reflexivity.
Qed.

(** A string of an even number of letters ['A'] to ['Z'] is left as it is. *)
Lemma process_text_fixed (s : str) :
  Forall (fun c => is_upper c = true) s ->
  Nat.even (List.length s) = true ->
  PlayfairCipher.process_text s = s.
Proof.
  intros Hup Hev. rewrite process_text_refines. unfold process_text_spec.
  assert (Hf : filter isalpha s = s).
  { apply filter_all. rewrite Forall_forall in Hup |- *.
    intros c Hc. apply is_upper_isalpha. apply Hup; exact Hc. }
  assert (Hm : upper s = s).
  { clear Hf Hev. induction Hup as [| c s Hc _ IH]; [reflexivity |].
    rewrite upper_cons, (upper_str_upper c Hc), IH. reflexivity. }
  rewrite Hf, Hm. rewrite <- Nat.negb_even, Hev. reflexivity.
Qed.

(** X9. On ASCII text [process_text] changes nothing in a text it has
    processed. *)
Theorem process_text_idempotent (text : str) :
  Forall (fun c => is_ascii c = true) text ->
  PlayfairCipher.process_text (PlayfairCipher.process_text text)
  = PlayfairCipher.process_text text.
Proof.
  intros Hascii. apply process_text_fixed.
  - apply process_text_upper. exact Hascii.
  - apply process_text_even.
Qed.

Lemma process_text_idempotent_witness :
  Forall (fun c => is_ascii c = true) (lit "Hi, you") /\
  PlayfairCipher.process_text (PlayfairCipher.process_text (lit "Hi, you"))
  = PlayfairCipher.process_text (lit "Hi, you").
Proof.
  assert (H : Forall (fun c => is_ascii c = true) (lit "Hi, you"))
    by (repeat constructor).
  split; [exact H |].
  exact (process_text_idempotent (lit "Hi, you") H).
Defined.

(** X10. On a text without a letter [process_text] returns the empty string
    and [transform] returns the empty string, for every cipher object and
    every mode. *)
Theorem playfair_no_letter_text (self : PlayfairCipher.t) (text mode : str) :
  (forall c, In c text -> isalpha c = false) ->
  PlayfairCipher.process_text text = [] /\
  PlayfairCipher.transform self text mode = OK [].
Proof.
  intros H.
  assert (Hp : PlayfairCipher.process_text text = []).
  { rewrite process_text_refines. unfold process_text_spec.
    rewrite (filter_none isalpha text H). reflexivity. }
  split; [exact Hp |].
  unfold PlayfairCipher.transform. rewrite Hp. reflexivity.
Qed.

Lemma playfair_no_letter_text_witness :
  (forall c, In c (lit "1 + 1 = 2?") -> isalpha c = false) /\
  PlayfairCipher.process_text (lit "1 + 1 = 2?") = [] /\
  PlayfairCipher.transform pf_demo (lit "1 + 1 = 2?") (lit "encrypt") = OK [].
Proof.
  assert (H : forall c, In c (lit "1 + 1 = 2?") -> isalpha c = false).
  { apply existsb_false_forall. reflexivity. }
  split; [exact H |].
  exact (playfair_no_letter_text pf_demo (lit "1 + 1 = 2?") (lit "encrypt") H).
Defined.

(** ** Playfair: the output of [transform] *)

Lemma getitem_OK_In {A : Type} (l : list A) (i : Z) (x : A) :
  getitem l i = OK x -> In x l.
Proof.
  unfold getitem. destruct (norm_index (len l) i) as [j |]; [| discriminate].
  destruct (nth_error l j) as [y |] eqn:E; [| discriminate].
  intros H. injection H as <-. eapply nth_error_In; exact E.
Qed.

Lemma cell_present (self : PlayfairCipher.t) (row col : option Z) (a : ascii) :
  PlayfairCipher.cell self row col = OK a -> present self a.
Proof.
  unfold PlayfairCipher.cell. intros H.
  apply bind_OK in H. destruct H as (r & Hr & Ha).
  destruct row as [z |]; [| discriminate].
  destruct col as [z' |]; [| discriminate].
  cbn [subscript] in Hr, Ha.
  exists r. split; eapply getitem_OK_In; eassumption.
Qed.

(** A pair that is transformed adds two cells of the matrix to the result. *)
Lemma pair_step_OK (self : PlayfairCipher.t) (mode acc out : str)
      (char1 char2 : ascii) :
  PlayfairCipher.pair_step self mode acc char1 char2 = OK out ->
  exists a b, out = acc ++ [a; b] /\ present self a /\ present self b.
Proof.
  intros H. rewrite (pair_step_any_mode self mode (lit "encrypt")) in H.
  unfold PlayfairCipher.pair_step in H.
  apply bind_OK in H. destruct H as ([row1 col1] & _ & H).
  apply bind_OK in H. destruct H as ([row2 col2] & _ & H).
  apply bind_OK in H.
  destruct H as ([[[row1' col1'] row2'] col2'] & _ & H).
  change (str_eqb (lit "encrypt") (lit "encrypt")) with true in H.
  cbv iota in H.
  apply bind_OK in H. destruct H as (a & Ha & H).
  apply bind_OK in H. destruct H as (b & Hb & H).
  injection H as <-. exists a, b.
  split; [reflexivity |].
  split; eapply cell_present; eassumption.
Qed.

Lemma pairs_loop_OK (self : PlayfairCipher.t) (mode : str) (text : str) :
  forall acc out,
    pairs_loop self mode text acc = OK out ->
    exists tail,
      out = acc ++ tail /\ List.length tail = List.length text /\
      Forall (present self) tail.
Proof.
  induction text as [| c | c1 c2 text IH] using pair_ind; intros acc out H.
  - injection H as <-. exists []. rewrite app_nil_r. repeat split. constructor.
  - discriminate.
  - cbn [pairs_loop] in H. apply bind_OK in H. destruct H as (acc' & Hs & H).
    destruct (pair_step_OK _ _ _ _ _ _ Hs) as (a & b & -> & Ha & Hb).
    destruct (IH _ _ H) as (tail & -> & Hlen & Hall).
    exists (a :: b :: tail). rewrite <- app_assoc. cbn [app List.length].
    split; [reflexivity |]. split; [congruence |].
    constructor; [exact Ha |]. constructor; [exact Hb | exact Hall].
Qed.

(** X11. When [transform] returns, its output has as many characters as
    the processed text, an even number, and each of them is a cell of the
    key matrix. *)
Theorem playfair_transform_output (self : PlayfairCipher.t)
        (text mode out : str) :
  PlayfairCipher.transform self text mode = OK out ->
  List.length out = List.length (PlayfairCipher.process_text text) /\
  Nat.even (List.length out) = true /\
  Forall (present self) out.
Proof.
  unfold PlayfairCipher.transform. rewrite transform_loop_pairs. intros H.
  destruct (pairs_loop_OK _ _ _ _ _ H) as (tail & -> & Hlen & Hall).
  cbn [app]. split; [exact Hlen |].
  split; [rewrite Hlen; apply process_text_even | exact Hall].
Qed.

Lemma playfair_transform_output_witness :
  PlayfairCipher.transform pf_demo (lit "hide the gold") (lit "encrypt")
  = OK (lit "BMODZBXDNAGE") /\
  List.length (lit "BMODZBXDNAGE")
  = List.length (PlayfairCipher.process_text (lit "hide the gold")) /\
  Nat.even (List.length (lit "BMODZBXDNAGE")) = true /\
  Forall (present pf_demo) (lit "BMODZBXDNAGE").
Proof.
  assert (H : PlayfairCipher.transform pf_demo (lit "hide the gold")
                                       (lit "encrypt")
              = OK (lit "BMODZBXDNAGE")) by (vm_compute; reflexivity).
  split; [exact H |].
  exact (playfair_transform_output pf_demo (lit "hide the gold")
           (lit "encrypt") (lit "BMODZBXDNAGE") H).
Defined.

(** ** Playfair: a full matrix *)

Lemma cell_in_range (self : PlayfairCipher.t) (r k : Z) :
  matrix_5x5 self -> 0 <= r < 5 -> 0 <= k < 5 ->
  exists a, PlayfairCipher.cell self (Some r) (Some k) = OK a.
Proof.
  intros [Hrows Hcols] Hr Hk. unfold PlayfairCipher.cell. cbn [subscript].
  destruct (getitem_in (PlayfairCipher.key_matrix self) r)
    as (row & Hrow & Hin); [unfold len; lia |].
  rewrite Hrow. cbn [bind]. rewrite Forall_forall in Hcols.
  destruct (getitem_in row k) as (a & Ha & _);
    [unfold len; rewrite (Hcols row Hin); lia |].
  exists a. exact Ha.
Qed.

Lemma find_positions_in_range (self : PlayfairCipher.t) (char : ascii) :
  matrix_5x5 self -> present self char ->
  exists r k,
    PlayfairCipher.find_positions self char = OK (Some r, Some k) /\
    0 <= r < 5 /\ 0 <= k < 5.
Proof.
  intros [Hrows Hcols] (row0 & Hrow0 & Hin0).
  destruct (find_positions_found self char)
    as [[Habs _] | (j & row & k & Hj & Hk & _ & Hf)].
  - exfalso. exact (Habs row0 Hrow0 Hin0).
  - exists (Z.of_nat j), k. split; [exact Hf |].
    assert (Hjlt : (j < 5)%nat)
      by (rewrite <- Hrows; apply nth_error_Some; congruence).
    split; [lia |].
    destruct (index_nth char row k Hk) as [Hk0 Hkn].
    assert (Hklt : (Z.to_nat k < List.length row)%nat)
      by (apply nth_error_Some; congruence).
    rewrite Forall_forall in Hcols.
    rewrite (Hcols row (nth_error_In _ _ Hj)) in Hklt. lia.
Qed.

Lemma pair_step_total (self : PlayfairCipher.t) (mode acc : str)
      (char1 char2 : ascii) :
  matrix_5x5 self -> present self char1 -> present self char2 ->
  exists out, PlayfairCipher.pair_step self mode acc char1 char2 = OK out.
Proof.
  intros Hm H1 H2.
  destruct (find_positions_in_range self char1 Hm H1)
    as (r1 & k1 & Hf1 & Hr1 & Hk1).
  destruct (find_positions_in_range self char2 Hm H2)
    as (r2 & k2 & Hf2 & Hr2 & Hk2).
  rewrite (pair_step_any_mode self mode (lit "encrypt")).
  unfold PlayfairCipher.pair_step. rewrite Hf1, Hf2. cbn [bind].
  change (str_eqb (lit "encrypt") (lit "encrypt")) with true.
  assert (Hmod : forall z, 0 <= (z + 1) mod 5 < 5)
    by (intros z; apply Z.mod_pos_bound; lia).
  cbn [PlayfairCipher.pos_eqb].
  destruct (r1 =? r2); [| destruct (k1 =? k2)];
    cbn [PlayfairCipher.succ_mod5 bind]; cbv iota.
  - destruct (cell_in_range self r1 ((k1 + 1) mod 5) Hm Hr1 (Hmod k1))
      as (a & Ha).
    destruct (cell_in_range self r2 ((k2 + 1) mod 5) Hm Hr2 (Hmod k2))
      as (b & Hb).
    rewrite Ha. cbn [bind]. rewrite Hb. cbn [bind]. eexists; reflexivity.
  - destruct (cell_in_range self ((r1 + 1) mod 5) k1 Hm (Hmod r1) Hk1)
      as (a & Ha).
    destruct (cell_in_range self ((r2 + 1) mod 5) k2 Hm (Hmod r2) Hk2)
      as (b & Hb).
    rewrite Ha. cbn [bind]. rewrite Hb. cbn [bind]. eexists; reflexivity.
  - destruct (cell_in_range self r1 k2 Hm Hr1 Hk2) as (a & Ha).
    destruct (cell_in_range self r2 k1 Hm Hr2 Hk1) as (b & Hb).
    rewrite Ha. cbn [bind]. rewrite Hb. cbn [bind]. eexists; reflexivity.
Qed.

Lemma pairs_loop_total (self : PlayfairCipher.t) (mode : str) (text : str) :
  matrix_5x5 self -> Forall (present self) text ->
  Nat.even (List.length text) = true ->
  forall acc, exists out, pairs_loop self mode text acc = OK out.
Proof.
  intros Hm. induction text as [| c | c1 c2 text IH] using pair_ind;
    intros Hall Hev acc.
  - exists acc. reflexivity.
  - discriminate.
  - inversion Hall as [| x l H1 Hall']; subst.
    inversion Hall' as [| x l H2 Hall'']; subst.
    destruct (pair_step_total self mode acc c1 c2 Hm H1 H2) as (acc' & Hs).
    destruct (IH Hall'' Hev acc') as (out & Hout).
    exists out. cbn [pairs_loop]. rewrite Hs. cbn [bind]. exact Hout.
Qed.

(** X12. On an object whose key matrix has five rows of five cells,
    [transform] returns a string for every text whose letters, uppercased
    (with the padding ['X'] when there is one), are all in the matrix: the
    shifts modulo 5 never leave the matrix. *)
Theorem playfair_transform_total (self : PlayfairCipher.t) (text mode : str) :
  matrix_5x5 self ->
  Forall (present self) (PlayfairCipher.process_text text) ->
  exists out, PlayfairCipher.transform self text mode = OK out.
Proof.
  intros Hm Hall. unfold PlayfairCipher.transform.
  rewrite transform_loop_pairs.
  apply pairs_loop_total; [exact Hm | exact Hall | apply process_text_even].
Qed.

Lemma present_existsb (self : PlayfairCipher.t) (c : ascii) :
  existsb (contains c) (PlayfairCipher.key_matrix self) = true <->
  present self c.
Proof.
  rewrite existsb_exists. unfold present.
  split; intros (row & Hrow & Hc); exists row; split; auto;
    apply contains_In; exact Hc.
Qed.

Lemma present_forallb (self : PlayfairCipher.t) (s : str) :
  forallb (fun c => existsb (contains c) (PlayfairCipher.key_matrix self)) s
  = true ->
  Forall (present self) s.
Proof.
  intros H. rewrite forallb_forall in H. apply Forall_forall.
  intros c Hc. apply present_existsb. apply H; exact Hc.
Qed.

Lemma pf_demo_5x5 : matrix_5x5 pf_demo.
Proof. split; [reflexivity | repeat constructor]. Qed.

Lemma playfair_transform_total_witness :
  matrix_5x5 pf_demo /\
  Forall (present pf_demo) (PlayfairCipher.process_text (lit "hide the gold")) /\
  exists out,
    PlayfairCipher.transform pf_demo (lit "hide the gold") (lit "decrypt")
    = OK out.
Proof.
  assert (Hall : Forall (present pf_demo)
                        (PlayfairCipher.process_text (lit "hide the gold")))
    by (apply present_forallb; vm_compute; reflexivity).
  split; [exact pf_demo_5x5 |]. split; [exact Hall |].
  exact (playfair_transform_total pf_demo (lit "hide the gold")
           (lit "decrypt") pf_demo_5x5 Hall).
Defined.

(** ** Playfair: a matrix of distinct cells *)

Lemma NoDup_app_disjoint {A : Type} (l1 l2 : list A) (x : A) :
  NoDup (l1 ++ l2) -> In x l1 -> In x l2 -> False.
Proof.
  induction l1 as [| y l1 IH]; intros Hnd H1 H2; [contradiction |].
  cbn [app] in Hnd. apply NoDup_cons_iff in Hnd. destruct Hnd as [Hy Hnd].
  destruct H1 as [-> | H1].
  - apply Hy. apply in_or_app. right; exact H2.
  - exact (IH Hnd H1 H2).
Qed.

Lemma concat_NoDup_rows {A : Type} (km : list (list A)) :
  NoDup (List.concat km) ->
  forall j1 j2 row1 row2 c,
    nth_error km j1 = Some row1 -> nth_error km j2 = Some row2 ->
    In c row1 -> In c row2 -> j1 = j2.
Proof.
  induction km as [| r0 km IH]; intros Hnd j1 j2 row1 row2 c H1 H2 Hc1 Hc2.
  - destruct j1; discriminate.
  - cbn [List.concat] in Hnd.
    destruct j1 as [| j1]; destruct j2 as [| j2]; cbn [nth_error] in H1, H2.
    + reflexivity.
    + exfalso. injection H1 as <-.
      apply (NoDup_app_disjoint _ _ c Hnd Hc1).
      apply in_concat. exists row2. split; [| exact Hc2].
      eapply nth_error_In; exact H2.
    + exfalso. injection H2 as <-.
      apply (NoDup_app_disjoint _ _ c Hnd Hc2).
      apply in_concat. exists row1. split; [| exact Hc1].
      eapply nth_error_In; exact H1.
    + f_equal. apply (IH (NoDup_app_remove_l _ _ Hnd) j1 j2 row1 row2 c);
        assumption.
Qed.

Lemma concat_NoDup_row {A : Type} (km : list (list A)) (j : nat)
      (row : list A) :
  NoDup (List.concat km) -> nth_error km j = Some row -> NoDup row.
Proof.
  revert j. induction km as [| r0 km IH]; intros j Hnd Hj.
  - destruct j; discriminate.
  - cbn [List.concat] in Hnd. destruct j as [| j]; cbn [nth_error] in Hj.
    + injection Hj as <-. exact (NoDup_app_remove_r _ _ Hnd).
    + exact (IH j (NoDup_app_remove_l _ _ Hnd) Hj).
Qed.

Lemma getitem_nonneg_nth {A : Type} (l : list A) (i : Z) (x : A) :
  0 <= i -> getitem l i = OK x -> nth_error l (Z.to_nat i) = Some x.
Proof.
  intros Hi. unfold getitem, norm_index.
  destruct (i <? 0) eqn:E; [apply Z.ltb_lt in E; lia |]. rewrite E.
  destruct (len l <=? i); cbn [orb]; [discriminate |].
  destruct (nth_error l (Z.to_nat i)) as [y |]; [| discriminate].
  intros H. injection H as <-. reflexivity.
Qed.

Lemma find_cell (self : PlayfairCipher.t) (j k : nat) (row : str)
      (c : ascii) :
  NoDup (List.concat (PlayfairCipher.key_matrix self)) ->
  nth_error (PlayfairCipher.key_matrix self) j = Some row ->
  nth_error row k = Some c ->
  PlayfairCipher.find_positions self c
  = OK (Some (Z.of_nat j), Some (Z.of_nat k)).
Proof.
  intros Hnd Hj Hk.
  destruct (find_positions_found self c)
    as [[Habs _] | (j' & row' & k' & Hj' & Hk' & _ & Hf)].
  - exfalso. apply (Habs row); eapply nth_error_In; eassumption.
  - destruct (index_nth c row' k' Hk') as [Hk0 Hkn].
    assert (Hjj : j' = j).
    { apply (concat_NoDup_rows _ Hnd j' j row' row c Hj' Hj);
        eapply nth_error_In; eassumption. }
    subst j'. rewrite Hj in Hj'. injection Hj' as <-.
    assert (Hkk : Z.to_nat k' = k).
    { apply (proj1 (NoDup_nth_error row) (concat_NoDup_row _ _ _ Hnd Hj)).
      - apply nth_error_Some. congruence.
      - congruence. }
    rewrite Hf. do 3 f_equal. lia.
Qed.

Lemma cell_nth (self : PlayfairCipher.t) (r k : Z) (c : ascii) :
  0 <= r -> 0 <= k ->
  PlayfairCipher.cell self (Some r) (Some k) = OK c ->
  exists row,
    nth_error (PlayfairCipher.key_matrix self) (Z.to_nat r) = Some row /\
    nth_error row (Z.to_nat k) = Some c.
Proof.
  intros Hr Hk H. unfold PlayfairCipher.cell in H. cbn [subscript] in H.
  apply bind_OK in H. destruct H as (row & Hrow & Hc).
  exists row. split; apply getitem_nonneg_nth; assumption.
Qed.

Lemma find_of_cell (self : PlayfairCipher.t) (r k : Z) (c : ascii) :
  NoDup (List.concat (PlayfairCipher.key_matrix self)) ->
  0 <= r -> 0 <= k ->
  PlayfairCipher.cell self (Some r) (Some k) = OK c ->
  PlayfairCipher.find_positions self c = OK (Some r, Some k).
Proof.
  intros Hnd Hr Hk H.
  destruct (cell_nth self r k c Hr Hk H) as (row & Hrow & Hc).
  rewrite (find_cell self _ _ row c Hnd Hrow Hc).
  rewrite !Z2Nat.id by assumption. reflexivity.
Qed.

Lemma pf_demo_distinct : NoDup (List.concat (PlayfairCipher.key_matrix pf_demo)).
Proof.
  replace (List.concat (PlayfairCipher.key_matrix pf_demo))
    with (nodup ascii_dec (List.concat (PlayfairCipher.key_matrix pf_demo)))
    by (vm_compute; reflexivity).
  apply NoDup_nodup.
Qed.

(** X13. When the cells of the key matrix are pairwise distinct,
    [find_positions] gives back the row and the column of the cell that
    holds the character. *)
Theorem find_positions_of_cell (self : PlayfairCipher.t) (r k : Z)
        (c : ascii) :
  NoDup (List.concat (PlayfairCipher.key_matrix self)) ->
  0 <= r -> 0 <= k ->
  PlayfairCipher.cell self (Some r) (Some k) = OK c ->
  PlayfairCipher.find_positions self c = OK (Some r, Some k).
Proof.
  intros Hnd Hr Hk H.
  destruct (cell_nth self r k c Hr Hk H) as (row & Hrow & Hc).
  rewrite (find_cell self _ _ row c Hnd Hrow Hc).
  rewrite !Z2Nat.id by assumption. reflexivity.
Qed.

Lemma find_positions_of_cell_witness :
  NoDup (List.concat (PlayfairCipher.key_matrix pf_demo)) /\
  0 <= 1 /\ 0 <= 2 /\
  PlayfairCipher.cell pf_demo (Some 1) (Some 2) = OK "E"%char /\
  PlayfairCipher.find_positions pf_demo "E"%char = OK (Some 1, Some 2).
Proof.
  assert (H0 : 0 <= 1) by lia. assert (H1 : 0 <= 2) by lia.
  assert (Hc : PlayfairCipher.cell pf_demo (Some 1) (Some 2) = OK "E"%char)
    by (vm_compute; reflexivity).
  split; [exact pf_demo_distinct |]. split; [exact H0 |].
  split; [exact H1 |]. split; [exact Hc |].
  exact (find_positions_of_cell pf_demo 1 2 "E"%char pf_demo_distinct
           H0 H1 Hc).
Defined.

(** X14. The rule of [transform] in coordinates, on a matrix of distinct
    cells: the characters of the cells [(r1, k1)] and [(r2, k2)] become the
    cells one column to the right (modulo 5) when the rows are equal, else
    the cells one row down (modulo 5) when the columns are equal, else the
    cells with the columns exchanged; the mode plays no part. *)
Theorem playfair_pair_rule (self : PlayfairCipher.t) (mode acc : str)
        (r1 k1 r2 k2 : Z) (a b : ascii) :
  NoDup (List.concat (PlayfairCipher.key_matrix self)) ->
  0 <= r1 -> 0 <= k1 -> 0 <= r2 -> 0 <= k2 ->
  PlayfairCipher.cell self (Some r1) (Some k1) = OK a ->
  PlayfairCipher.cell self (Some r2) (Some k2) = OK b ->
  PlayfairCipher.pair_step self mode acc a b
  = if r1 =? r2 then
      x <- PlayfairCipher.cell self (Some r1) (Some ((k1 + 1) mod 5)) ;;
      y <- PlayfairCipher.cell self (Some r2) (Some ((k2 + 1) mod 5)) ;;
      OK (acc ++ [x; y])
    else if k1 =? k2 then
      x <- PlayfairCipher.cell self (Some ((r1 + 1) mod 5)) (Some k1) ;;
      y <- PlayfairCipher.cell self (Some ((r2 + 1) mod 5)) (Some k2) ;;
      OK (acc ++ [x; y])
    else
      x <- PlayfairCipher.cell self (Some r1) (Some k2) ;;
      y <- PlayfairCipher.cell self (Some r2) (Some k1) ;;
      OK (acc ++ [x; y]).
Proof.
  intros Hnd Hr1 Hk1 Hr2 Hk2 Ha Hb.
  rewrite (pair_step_any_mode self mode (lit "encrypt")).
  unfold PlayfairCipher.pair_step.
  rewrite (find_of_cell self r1 k1 a Hnd Hr1 Hk1 Ha).
  rewrite (find_of_cell self r2 k2 b Hnd Hr2 Hk2 Hb).
  cbn [bind PlayfairCipher.pos_eqb].
  change (str_eqb (lit "encrypt") (lit "encrypt")) with true.
  destruct (r1 =? r2); [| destruct (k1 =? k2)];
    cbn [PlayfairCipher.succ_mod5 bind]; reflexivity.
Qed.

Lemma playfair_pair_rule_witness :
  NoDup (List.concat (PlayfairCipher.key_matrix pf_demo)) /\
  PlayfairCipher.cell pf_demo (Some 2) (Some 4) = OK "H"%char /\
  PlayfairCipher.cell pf_demo (Some 1) (Some 0) = OK "I"%char /\
  PlayfairCipher.pair_step pf_demo (lit "encrypt") [] "H"%char "I"%char
  = OK (lit "BM").
Proof.
  assert (Ha : PlayfairCipher.cell pf_demo (Some 2) (Some 4) = OK "H"%char)
    by (vm_compute; reflexivity).
  assert (Hb : PlayfairCipher.cell pf_demo (Some 1) (Some 0) = OK "I"%char)
    by (vm_compute; reflexivity).
  split; [exact pf_demo_distinct |]. split; [exact Ha |]. split; [exact Hb |].
  rewrite (playfair_pair_rule pf_demo (lit "encrypt") [] 2 4 1 0
             "H"%char "I"%char pf_demo_distinct
             ltac:(lia) ltac:(lia) ltac:(lia) ltac:(lia) Ha Hb).
  vm_compute. reflexivity.
Defined.

(** ** Rail Fence: what [encrypt] keeps of the text *)

Lemma block_length (N : nat) (h : ascii) :
  (1 <= N)%nat -> List.length (block N h) = N.
Proof. intros H. unfold block. cbn [List.length]. rewrite repeat_length. lia. Qed.

Lemma blank_row_block (N : nat) :
  (1 <= N)%nat -> repeat " "%char N = block N " "%char.
Proof. intros H. unfold block. destruct N as [| n]; [lia |].
  cbn [repeat]. rewrite Nat.sub_1_r. reflexivity. Qed.

Lemma fence_set_block (R N : nat) (x : str) (fence : list (list ascii))
      (rail : Z) (char : ascii) :
  (1 <= N)%nat -> In char x ->
  List.length fence = R ->
  Forall (fun row => exists h, row = block N h /\ (h = " "%char \/ In h x))
         fence ->
  0 <= rail < Z.of_nat R ->
  exists fence',
    RailFence.fence_set fence rail 0 char = OK fence' /\
    List.length fence' = R /\
    Forall (fun row => exists h, row = block N h /\ (h = " "%char \/ In h x))
           fence'.
Proof.
  intros HN Hchar HR Hall Hrail. unfold RailFence.fence_set.
  destruct (getitem_in fence rail) as (row & Hrow & Hin);
    [unfold len; lia |].
  rewrite Hrow. cbn [bind].
  pose proof Hall as Hall'. rewrite Forall_forall in Hall'.
  destruct (Hall' row Hin) as (h & -> & _).
  unfold setitem at 1.
  rewrite norm_index_in by (unfold len; rewrite block_length; lia).
  cbn [bind]. unfold setitem.
  rewrite norm_index_in by (unfold len; lia).
  eexists. split; [reflexivity |]. split.
  - rewrite list_set_length. exact HR.
  - apply Forall_list_set; [exact Hall |].
    exists char. split; [reflexivity | right; exact Hchar].
Qed.

Lemma encrypt_body_block (self : RailFence.t) (plaintext : str)
      (fence : list (list ascii)) (rail direction : Z) (char : ascii) :
  2 <= RailFence.rails self -> In char plaintext ->
  List.length fence = Z.to_nat (RailFence.rails self) ->
  Forall (fun row => exists h, row = block (List.length plaintext) h /\
                               (h = " "%char \/ In h plaintext)) fence ->
  on_fence (RailFence.rails self) rail direction ->
  exists fence' rail' direction',
    RailFence.encrypt_body self plaintext (fence, rail, direction) char
    = OK (fence', rail', direction') /\
    List.length fence' = Z.to_nat (RailFence.rails self) /\
    Forall (fun row => exists h, row = block (List.length plaintext) h /\
                                 (h = " "%char \/ In h plaintext)) fence' /\
    on_fence (RailFence.rails self) rail' direction'.
Proof.
  intros HR Hchar Hlen Hall Hon.
  assert (HN : (1 <= List.length plaintext)%nat)
    by (destruct plaintext; [contradiction | simpl; lia]).
  pose proof (advance_on_fence self rail direction HR Hon) as Hon'.
  destruct (RailFence.advance self rail direction) as [rail' direction'] eqn:Ea.
  cbn [fst snd] in Hon'.
  unfold RailFence.encrypt_body. destruct Hon as [Hr _].
  destruct (getitem_in fence rail) as (row & Hrow & Hin);
    [unfold len; lia |].
  rewrite Hrow. cbn [bind].
  assert (Hrl : len row = len plaintext).
  { rewrite Forall_forall in Hall. destruct (Hall row Hin) as (h & -> & _).
    unfold len. rewrite block_length by exact HN. reflexivity. }
  rewrite Hrl, Z.sub_diag.
  destruct (fence_set_block _ _ plaintext fence rail char HN Hchar Hlen Hall)
    as (fence' & Hset & Hlen' & Hall'); [lia |].
  rewrite Hset. cbn [bind]. rewrite Ea.
  exists fence', rail', direction'. auto.
Qed.

Lemma encrypt_loop_block (self : RailFence.t) (plaintext : str) (l : str) :
  2 <= RailFence.rails self -> (forall c, In c l -> In c plaintext) ->
  forall (fence : list (list ascii)) (rail direction : Z),
    List.length fence = Z.to_nat (RailFence.rails self) ->
    Forall (fun row => exists h, row = block (List.length plaintext) h /\
                                 (h = " "%char \/ In h plaintext)) fence ->
    on_fence (RailFence.rails self) rail direction ->
    exists fence' rail' direction',
      for_each (RailFence.encrypt_body self plaintext) l
               (fence, rail, direction)
      = OK (fence', rail', direction') /\
      List.length fence' = Z.to_nat (RailFence.rails self) /\
      Forall (fun row => exists h, row = block (List.length plaintext) h /\
                                   (h = " "%char \/ In h plaintext)) fence'.
Proof.
  intros HR. induction l as [| c l IH]; intros Hl fence rail direction
                                              Hlen Hall Hon.
  - exists fence, rail, direction. repeat split; assumption.
  - destruct (encrypt_body_block self plaintext fence rail direction c HR
                (Hl c (or_introl eq_refl)) Hlen Hall Hon)
      as (f1 & r1 & d1 & Hstep & Hlen1 & Hall1 & Hon1).
    destruct (IH (fun c' Hc' => Hl c' (or_intror Hc')) f1 r1 d1
                 Hlen1 Hall1 Hon1) as (f2 & r2 & d2 & Hloop & Hlen2 & Hall2).
    exists f2, r2, d2. split; [| split; assumption].
    cbn [for_each]. rewrite Hstep. cbn [bind]. exact Hloop.
Qed.

Lemma blocks_of_fence (N : nat) (x : str) (fence : list (list ascii)) :
  Forall (fun row => exists h, row = block N h /\ (h = " "%char \/ In h x))
         fence ->
  exists heads,
    fence = map (block N) heads /\
    Forall (fun h => h = " "%char \/ In h x) heads.
Proof.
  induction 1 as [| row fence (h & -> & Hh) _ (heads & -> & Hall)].
  - exists []. split; [reflexivity | constructor].
  - exists (h :: heads). split; [reflexivity | constructor; assumption].
Qed.

(** X15. With two rails or more, [encrypt] of a non-empty text returns one
    block for each rail, a block being one character followed by spaces up
    to the length of the text; the character is a space or a character of
    the text.  So no more characters of the text than there are rails are
    in the output. *)
Theorem railfence_encrypt_blocks (self : RailFence.t) (plaintext : str) :
  2 <= RailFence.rails self -> plaintext <> [] ->
  exists heads,
    List.length heads = Z.to_nat (RailFence.rails self) /\
    Forall (fun h => h = " "%char \/ In h plaintext) heads /\
    RailFence.encrypt self plaintext
    = OK (List.concat (map (block (List.length plaintext)) heads)).
Proof.
  intros HR Hne.
  assert (HN : (1 <= List.length plaintext)%nat)
    by (destruct plaintext; [congruence | simpl; lia]).
  unfold RailFence.encrypt. rewrite blank_fence_repeat.
  destruct (encrypt_loop_block self plaintext plaintext HR (fun c H => H)
              (repeat (repeat " "%char (List.length plaintext))
                      (Z.to_nat (RailFence.rails self))) 0 1)
    as (f & r & d & Hloop & Hlen & Hall).
  - apply repeat_length.
  - apply Forall_forall. intros row Hrow. apply repeat_spec in Hrow.
    exists " "%char. split; [| left; reflexivity].
    rewrite Hrow. apply blank_row_block. exact HN.
  - apply on_fence_start. exact HR.
  - rewrite Hloop. cbn [bind]. rewrite map_id.
    destruct (blocks_of_fence _ _ _ Hall) as (heads & -> & Hheads).
    exists heads. rewrite length_map in Hlen.
    split; [exact Hlen |]. split; [exact Hheads | reflexivity].
Qed.

Lemma railfence_encrypt_blocks_witness :
  2 <= RailFence.rails (RailFence.init 2) /\ lit "HELLO" <> [] /\
  exists heads,
    List.length heads = Z.to_nat (RailFence.rails (RailFence.init 2)) /\
    Forall (fun h => h = " "%char \/ In h (lit "HELLO")) heads /\
    RailFence.encrypt (RailFence.init 2) (lit "HELLO")
    = OK (List.concat (map (block (List.length (lit "HELLO"))) heads)).
Proof.
  assert (HR : 2 <= RailFence.rails (RailFence.init 2)) by (simpl; lia).
  assert (Hne : lit "HELLO" <> []) by discriminate.
  split; [exact HR |]. split; [exact Hne |].
  exact (railfence_encrypt_blocks (RailFence.init 2) (lit "HELLO") HR Hne).
Defined.

(** X16. With two rails or more, [decrypt] returns a string of spaces, one
    for each character of the ciphertext. *)
Theorem railfence_decrypt_blank (self : RailFence.t) (ciphertext : str) :
  2 <= RailFence.rails self ->
  RailFence.decrypt self ciphertext
  = OK (map (fun _ => " "%char) ciphertext).
Proof.
  intros HR. rewrite (decrypt_spaces self ciphertext HR).
  rewrite map_const_repeat. reflexivity.
Qed.

Lemma railfence_decrypt_blank_witness :
  2 <= RailFence.rails (RailFence.init 3) /\
  RailFence.decrypt (RailFence.init 3) (lit "HOELL")
  = OK (map (fun _ => " "%char) (lit "HOELL")).
Proof.
  assert (HR : 2 <= RailFence.rails (RailFence.init 3)) by (simpl; lia).
  split; [exact HR |].
  exact (railfence_decrypt_blank (RailFence.init 3) (lit "HOELL") HR).
Defined.

(** ** Rail Fence: fewer than two rails *)

Lemma getitem_nil {A : Type} (i : Z) : getitem (@nil A) i = Raise IndexError.
Proof.
  unfold getitem, norm_index. cbn [len List.length Z.of_nat].
  destruct (i <? 0) eqn:E.
  - rewrite Z.add_0_r, E. reflexivity.
  - destruct (0 <=? i) eqn:E'; [rewrite E; reflexivity |].
    apply Z.ltb_ge in E. apply Z.leb_gt in E'. lia.
Qed.

(** X17. Without a rail (a rail count of zero or less) [decrypt] raises
    [IndexError] on every ciphertext, the empty one included, and [encrypt]
    raises [IndexError] on every text but the empty one. *)
Theorem railfence_no_rail (self : RailFence.t) (text : str) :
  RailFence.rails self <= 0 ->
  RailFence.decrypt self text = Raise IndexError /\
  (text <> [] -> RailFence.encrypt self text = Raise IndexError).
Proof.
  intros HR.
  assert (Hf : RailFence.blank_fence self text = []).
  { rewrite blank_fence_repeat.
    replace (Z.to_nat (RailFence.rails self)) with 0%nat by lia.
    reflexivity. }
  split.
  - unfold RailFence.decrypt. rewrite Hf, getitem_nil. reflexivity.
  - intros Hne. unfold RailFence.encrypt. rewrite Hf.
    destruct text as [| c text]; [congruence |].
    cbn [for_each]. unfold RailFence.encrypt_body at 1.
    rewrite getitem_nil. reflexivity.
Qed.

Lemma railfence_no_rail_witness :
  RailFence.rails (RailFence.init 0) <= 0 /\
  RailFence.decrypt (RailFence.init 0) (lit "ab") = Raise IndexError /\
  (lit "ab" <> [] ->
   RailFence.encrypt (RailFence.init 0) (lit "ab") = Raise IndexError).
Proof.
  assert (HR : RailFence.rails (RailFence.init 0) <= 0) by (simpl; lia).
  split; [exact HR |].
  exact (railfence_no_rail (RailFence.init 0) (lit "ab") HR).
Defined.

Lemma getitem_one_out {A : Type} (x : A) : getitem [x] 1 = Raise IndexError.
Proof. apply getitem_out. reflexivity. Qed.

(** X18. With one rail the walk leaves the fence after the first step:
    [encrypt] returns a text of one character unchanged and raises
    [IndexError] on a text of two characters or more, and [decrypt] raises
    [IndexError] on every ciphertext but the empty one. *)
Theorem railfence_one_rail (self : RailFence.t) (text : str) :
  RailFence.rails self = 1 ->
  (List.length text = 1%nat -> RailFence.encrypt self text = OK text) /\
  ((2 <= List.length text)%nat ->
   RailFence.encrypt self text = Raise IndexError) /\
  (text <> [] -> RailFence.decrypt self text = Raise IndexError).
Proof.
  intros HR.
  assert (Hf : RailFence.blank_fence self text
               = [repeat " "%char (List.length text)]).
  { rewrite blank_fence_repeat, HR. reflexivity. }
  assert (Hadv : RailFence.advance self 0 1 = (1, 1)).
  { unfold RailFence.advance. rewrite HR. reflexivity. }
  split; [| split].
  - intros Hlen. destruct text as [| c [| c' text]]; try discriminate.
    unfold RailFence.encrypt. rewrite Hf.
    cbn [for_each List.length repeat]. unfold RailFence.encrypt_body.
    rewrite getitem_head. cbn [bind].
    change (len [" "%char] - len [c]) with 0.
    unfold RailFence.fence_set. rewrite getitem_head. reflexivity.
  - intros Hlen. destruct text as [| c1 [| c2 text]];
      [simpl in Hlen; lia | simpl in Hlen; lia |].
    unfold RailFence.encrypt. rewrite Hf.
    set (x := c1 :: c2 :: text) in *.
    set (row0 := repeat " "%char (List.length x)).
    assert (Hrl : len row0 = len x)
      by (unfold len, row0; rewrite repeat_length; reflexivity).
    assert (Hpos : 0 <= 0 < len row0)
      by (rewrite Hrl; unfold len, x; simpl List.length; lia).
    subst x. cbn [for_each].
    unfold RailFence.encrypt_body at 1. rewrite getitem_head. cbn [bind].
    rewrite Hrl, Z.sub_diag.
    unfold RailFence.fence_set. rewrite getitem_head. cbn [bind].
    unfold setitem at 1. rewrite norm_index_in by exact Hpos. cbn [bind].
    unfold setitem at 1. rewrite norm_index_in by (unfold len; simpl; lia).
    cbn [bind list_set Z.to_nat]. rewrite Hadv. cbn [bind].
    unfold RailFence.encrypt_body at 1. rewrite getitem_one_out.
    reflexivity.
  - intros Hne. destruct text as [| c text]; [congruence |].
    unfold RailFence.decrypt. rewrite Hf. rewrite getitem_head. cbn [bind].
    unfold range, len at 1. rewrite repeat_length, Nat2Z.id.
    cbn [List.length seq map for_each].
    unfold RailFence.decrypt_body at 1. rewrite getitem_head. cbn [bind].
    cbn [repeat]. rewrite getitem_head. cbn [bind]. rewrite Hadv.
    unfold RailFence.fence_set. rewrite getitem_one_out. reflexivity.
Qed.

Lemma railfence_one_rail_witness :
  RailFence.rails (RailFence.init 1) = 1 /\
  ((2 <= List.length (lit "ab"))%nat ->
   RailFence.encrypt (RailFence.init 1) (lit "ab") = Raise IndexError) /\
  (lit "ab" <> [] ->
   RailFence.decrypt (RailFence.init 1) (lit "ab") = Raise IndexError).
Proof.
  assert (HR : RailFence.rails (RailFence.init 1) = 1) by reflexivity.
  split; [exact HR |].
  exact (proj2 (railfence_one_rail (RailFence.init 1) (lit "ab") HR)).
Defined.

(** ** Playfair: the key and the matrix of a constructed cipher *)

Lemma chunks_concat {A : Type} (n : nat) :
  forall s : list A,
    (List.length s <= 5 * n)%nat ->
    List.concat (map (fun j => firstn 5 (skipn (5 * j) s)) (seq 0 n)) = s.
Proof.
  induction n as [| n IH]; intros s Hlen.
  - destruct s; [reflexivity | simpl in Hlen; lia].
  - cbn [seq map List.concat]. rewrite <- seq_shift, map_map.
    rewrite (map_ext (fun j => firstn 5 (skipn (5 * S j) s))
                     (fun j => firstn 5 (skipn (5 * j) (skipn 5 s)))).
    + rewrite IH by (rewrite length_skipn; lia).
      change (5 * 0)%nat with 0%nat. cbn [skipn]. apply firstn_skipn.
    + intros j. rewrite skipn_skipn. do 2 f_equal. lia.
Qed.

Lemma key_matrix_chunks (k : str) :
  map (fun i => slice k i (i + 5)) (range3 0 (len k) 5)
  = map (fun j => firstn 5 (skipn (5 * j) k))
        (seq 0 (Z.to_nat ((len k - 0 + 5 - 1) / 5))).
Proof.
  unfold range3. rewrite map_map. apply map_ext. intros j. unfold slice.
  replace (0 + 5 * Z.of_nat j + 5 - (0 + 5 * Z.of_nat j)) with 5 by lia.
  replace (Z.to_nat (0 + 5 * Z.of_nat j)) with (5 * j)%nat by lia.
  reflexivity.
Qed.

(** The rows of the matrix, one after the other, are the key; every row has
    between one and five cells. *)
Lemma key_matrix_rows (k : str) :
  List.concat (map (fun i => slice k i (i + 5)) (range3 0 (len k) 5)) = k /\
  Forall (fun row => (1 <= List.length row <= 5)%nat)
         (map (fun i => slice k i (i + 5)) (range3 0 (len k) 5)).
Proof.
  rewrite key_matrix_chunks. pose proof (len_nonneg k) as Hk.
  set (n := Z.to_nat ((len k - 0 + 5 - 1) / 5)).
  assert (Hn : (List.length k <= 5 * n)%nat /\
               forall j, (j < n)%nat -> (5 * j < List.length k)%nat).
  { subst n. unfold len in *. split.
    - apply Nat2Z.inj_le. rewrite Nat2Z.inj_mul, Z2Nat.id.
      + Z.div_mod_to_equations. lia.
      + apply Z.div_pos; lia.
    - intros j Hj. apply Nat2Z.inj_lt. rewrite Nat2Z.inj_mul.
      assert (Hj' : Z.of_nat j < (Z.of_nat (List.length k) - 0 + 5 - 1) / 5)
        by lia.
      Z.div_mod_to_equations. lia. }
  destruct Hn as [Hle Hlt]. split; [apply chunks_concat; exact Hle |].
  apply Forall_forall. intros row Hrow. apply in_map_iff in Hrow.
  destruct Hrow as (j & <- & Hj). apply in_seq in Hj.
  rewrite length_firstn, length_skipn.
  specialize (Hlt j ltac:(lia)). lia.
Qed.

Lemma nth_error_map_seq {B : Type} (f : nat -> B) (n j : nat) (y : B) :
  forall start,
    nth_error (map f (seq start n)) j = Some y -> y = f (start + j)%nat.
Proof.
  revert j. induction n as [| n IH]; intros j start H.
  - destruct j; discriminate.
  - cbn [seq map] in H. destruct j as [| j]; cbn [nth_error] in H.
    + injection H as <-. rewrite Nat.add_0_r. reflexivity.
    + rewrite (IH j (S start) H). f_equal. lia.
Qed.

(** X19. What [PlayfairCipher.__init__] does with an ASCII key.  When the
    key has a letter it raises [ValueError].  When the key has no letter
    it returns an object whose key is the distinct characters of the key
    string in the order of their first appearance, and whose matrix is that
    key cut five cells at a time: row [j] is the cells [5 j] to [5 j + 4]
    of the key, the last row being shorter when the key runs out. *)
Theorem playfair_init_spec (key0 : str) :
  Forall (fun c => is_ascii c = true) key0 ->
  (forall c, In c key0 -> is_letter c = true ->
             PlayfairCipher.init key0 = Raise ValueError) /\
  ((forall c, In c key0 -> is_letter c = false) ->
   exists self,
     PlayfairCipher.init key0 = OK self /\
     NoDup (PlayfairCipher.key self) /\
     (forall c, In c (PlayfairCipher.key self) <-> In c key0) /\
     StronglySorted (first_before key0) (PlayfairCipher.key self) /\
     List.concat (PlayfairCipher.key_matrix self) = PlayfairCipher.key self /\
     Forall (fun row => (1 <= List.length row <= 5)%nat)
            (PlayfairCipher.key_matrix self) /\
     (forall j row,
         nth_error (PlayfairCipher.key_matrix self) j = Some row ->
         row = firstn 5 (skipn (5 * j) (PlayfairCipher.key self)))).
Proof.
  intros Hascii. split.
  - intros c Hc Ha. apply (playfair_init_letter_raises key0 c Hc Ha).
  - intros Hno0.
    assert (Hno : forall c, In c key0 -> isalpha c = false).
    { intros c Hc. rewrite Forall_forall in Hascii.
      rewrite (ascii_isalpha c (Hascii c Hc)). apply Hno0; exact Hc. }
    destruct (no_letter_fixed key0 Hno) as [Hu Hl].
    unfold PlayfairCipher.init. rewrite Hu, Hl.
    destruct (sorted_by_total (fun x => index x key0) (set_of key0))
      as (out & Hout & _).
    { intros x Hx. unfold set_of in Hx. apply nodup_In in Hx.
      destruct (index_in x key0 Hx) as (i & Hi & _). exists i; exact Hi. }
    rewrite Hout. cbn [bind]. eexists. split; [reflexivity |].
    cbn [PlayfairCipher.key PlayfairCipher.key_matrix].
    destruct (sorted_by_first_appearance key0 _ out
                (NoDup_nodup ascii_dec key0) Hout) as (Hperm & Hnd & Hord).
    split; [exact Hnd |]. split.
    { intros c. rewrite (Permutation_in' (eq_refl c) Hperm).
      unfold set_of. apply nodup_In. }
    split; [exact Hord |].
    destruct (key_matrix_rows out) as [Hcat Hrows].
    split; [exact Hcat |]. split; [exact Hrows |].
    intros j row Hj. rewrite key_matrix_chunks in Hj.
    apply nth_error_map_seq in Hj. exact Hj.
Qed.

Lemma playfair_init_spec_witness :
  Forall (fun c => is_ascii c = true) (lit "12 1;") /\
  (forall c, In c (lit "12 1;") -> is_letter c = false) /\
  exists self,
    PlayfairCipher.init (lit "12 1;") = OK self /\
    NoDup (PlayfairCipher.key self) /\
    (forall c, In c (PlayfairCipher.key self) <-> In c (lit "12 1;")) /\
    StronglySorted (first_before (lit "12 1;")) (PlayfairCipher.key self) /\
    List.concat (PlayfairCipher.key_matrix self) = PlayfairCipher.key self /\
    Forall (fun row => (1 <= List.length row <= 5)%nat)
           (PlayfairCipher.key_matrix self) /\
    (forall j row,
        nth_error (PlayfairCipher.key_matrix self) j = Some row ->
        row = firstn 5 (skipn (5 * j) (PlayfairCipher.key self))).
Proof.
  assert (Hascii : Forall (fun c => is_ascii c = true) (lit "12 1;"))
    by (repeat constructor).
  assert (Hno : forall c, In c (lit "12 1;") -> is_letter c = false)
    by (apply existsb_false_forall; reflexivity).
  split; [exact Hascii |]. split; [exact Hno |].
  exact (proj2 (playfair_init_spec (lit "12 1;") Hascii) Hno).
Defined.

(** ** Rail Fence: a text no longer than the number of rails *)

Lemma list_set_middle {A : Type} (l1 : list A) (x v : A) (l2 : list A) :
  list_set (l1 ++ x :: l2) (List.length l1) v = l1 ++ v :: l2.
Proof.
  induction l1 as [| y l1 IH]; [reflexivity |].
  cbn [app List.length list_set]. rewrite IH. reflexivity.
Qed.

Lemma repeat_S_cons {A : Type} (v : A) (n : nat) :
  (1 <= n)%nat -> repeat v n = v :: repeat v (n - 1).
Proof.
  intros H. destruct n as [| n]; [lia |].
  cbn [repeat]. rewrite Nat.sub_1_r. reflexivity.
Qed.

(** Placing the characters of [l] from rail [k] on, one per rail, on a
    fence whose first [k] rails are taken. *)
Lemma encrypt_loop_short (self : RailFence.t) (plaintext : str) (l : str) :
  2 <= RailFence.rails self -> (1 <= List.length plaintext)%nat ->
  forall (pre : str),
    (List.length pre + List.length l
     <= Z.to_nat (RailFence.rails self))%nat ->
    exists rail direction,
      for_each (RailFence.encrypt_body self plaintext) l
               (map (block (List.length plaintext)) pre
                ++ repeat (block (List.length plaintext) " "%char)
                          (Z.to_nat (RailFence.rails self) - List.length pre),
                Z.of_nat (List.length pre),
                if Z.of_nat (List.length pre) =? RailFence.rails self - 1
                then -1 else 1)
      = OK (map (block (List.length plaintext)) (pre ++ l)
            ++ repeat (block (List.length plaintext) " "%char)
                      (Z.to_nat (RailFence.rails self)
                       - List.length (pre ++ l)),
            rail, direction).
Proof.
  intros HR HN. induction l as [| c l IH]; intros pre Hlen.
  - rewrite app_nil_r. cbn [for_each]. eexists. eexists. reflexivity.
  - cbn [List.length] in Hlen. cbn [for_each].
    set (N := List.length plaintext) in *.
    set (R := Z.to_nat (RailFence.rails self)) in *.
    set (k := List.length pre) in *.
    assert (Hrep : repeat (block N " "%char) (R - k)
                   = block N " "%char :: repeat (block N " "%char) (R - k - 1))
      by (apply repeat_S_cons; lia).
    unfold RailFence.encrypt_body at 1.
    assert (Hget : getitem (map (block N) pre ++ repeat (block N " "%char) (R - k))
                           (Z.of_nat k) = OK (block N " "%char)).
    { rewrite Hrep.
      replace (Z.of_nat k) with (len (map (block N) pre))
        by (unfold len; rewrite length_map; reflexivity).
      apply getitem_app_mid. }
    rewrite Hget. cbn [bind].
    replace (len (block N " "%char) - len plaintext) with 0
      by (unfold len; rewrite block_length by exact HN; fold N; lia).
    unfold RailFence.fence_set. rewrite Hget. cbn [bind].
    unfold setitem at 1.
    rewrite norm_index_in
      by (unfold len; rewrite block_length by exact HN; lia).
    cbn [bind]. unfold setitem at 1.
    rewrite norm_index_in
      by (unfold len; rewrite length_app, length_map, repeat_length; lia).
    cbn [bind].
    replace (list_set (block N " "%char) (Z.to_nat 0) c) with (block N c)
      by reflexivity.
    rewrite Nat2Z.id, Hrep.
    pose proof (list_set_middle (map (block N) pre) (block N " "%char)
                  (block N c) (repeat (block N " "%char) (R - k - 1))) as Hls.
    rewrite length_map in Hls. fold k in Hls. rewrite Hls. clear Hls.
    replace (map (block N) pre ++ block N c :: repeat (block N " "%char) (R - k - 1))
      with (map (block N) (pre ++ [c])
            ++ repeat (block N " "%char) (R - List.length (pre ++ [c]))).
    2: { rewrite map_app, <- app_assoc, length_app. cbn [map app List.length].
         fold k. do 3 f_equal. lia. }
    destruct l as [| c' l'].
    + destruct (RailFence.advance self (Z.of_nat k)
                  (if Z.of_nat k =? RailFence.rails self - 1 then -1 else 1))
        as [rail' direction'].
      cbn [for_each bind]. eexists. eexists. reflexivity.
    + cbn [List.length] in Hlen.
      assert (Hadv : RailFence.advance self (Z.of_nat k)
                       (if Z.of_nat k =? RailFence.rails self - 1
                        then -1 else 1)
                     = (Z.of_nat (List.length (pre ++ [c])),
                        if Z.of_nat (List.length (pre ++ [c]))
                           =? RailFence.rails self - 1
                        then -1 else 1)).
      { rewrite length_app. cbn [List.length]. fold k.
        unfold RailFence.advance.
        destruct (Z.eqb_spec (Z.of_nat k) (RailFence.rails self - 1));
          [lia |].
        replace (Z.of_nat k + 1) with (Z.of_nat (k + 1)) by lia.
        destruct (Z.eqb_spec (Z.of_nat (k + 1)) (RailFence.rails self - 1));
          destruct (Z.eqb_spec (Z.of_nat (k + 1)) 0); cbn [orb];
          try lia; reflexivity. }
      rewrite Hadv. cbn [bind].
      destruct (IH (pre ++ [c])) as (rail' & direction' & Hloop).
      { rewrite length_app. cbn [List.length]. fold k. lia. }
      rewrite <- !app_assoc in Hloop. cbn [app] in Hloop.
      exists rail', direction'. exact Hloop.
Qed.

(** X20. When the text is no longer than the number of rails (at least
    two), every character gets a rail of its own: [encrypt] returns, for
    each character of the text in turn, that character followed by spaces
    up to the length of the text, and then the rails left over, all
    spaces. *)
Theorem railfence_encrypt_short (self : RailFence.t) (plaintext : str) :
  2 <= RailFence.rails self -> plaintext <> [] ->
  (List.length plaintext <= Z.to_nat (RailFence.rails self))%nat ->
  RailFence.encrypt self plaintext
  = OK (List.concat
          (map (block (List.length plaintext))
               (plaintext
                ++ repeat " "%char (Z.to_nat (RailFence.rails self)
                                    - List.length plaintext)))).
Proof.
  intros HR Hne Hlen.
  assert (HN : (1 <= List.length plaintext)%nat)
    by (destruct plaintext; [congruence | simpl; lia]).
  unfold RailFence.encrypt. rewrite blank_fence_repeat.
  destruct (encrypt_loop_short self plaintext plaintext HR HN [])
    as (rail & direction & Hloop); [simpl; lia |].
  cbn [map app List.length] in Hloop.
  rewrite Nat.sub_0_r in Hloop.
  rewrite <- (blank_row_block _ HN) in Hloop.
  destruct (Z.eqb_spec (Z.of_nat 0) (RailFence.rails self - 1)) as [H0 | _];
    [simpl in H0; lia |].
  change (Z.of_nat 0) with 0 in Hloop.
  rewrite Hloop. cbn [bind]. rewrite map_id, map_app, map_repeat.
  rewrite <- (blank_row_block _ HN). reflexivity.
Qed.

Lemma railfence_encrypt_short_witness :
  2 <= RailFence.rails (RailFence.init 3) /\ lit "ab" <> [] /\
  (List.length (lit "ab") <= Z.to_nat (RailFence.rails (RailFence.init 3)))%nat /\
  RailFence.encrypt (RailFence.init 3) (lit "ab") = OK (lit "a b   ").
Proof.
  assert (HR : 2 <= RailFence.rails (RailFence.init 3)) by (simpl; lia).
  assert (Hne : lit "ab" <> []) by discriminate.
  assert (Hlen : (List.length (lit "ab")
                  <= Z.to_nat (RailFence.rails (RailFence.init 3)))%nat)
    by (simpl; lia).
  split; [exact HR |]. split; [exact Hne |]. split; [exact Hlen |].
  rewrite (railfence_encrypt_short (RailFence.init 3) (lit "ab") HR Hne Hlen).
  reflexivity.
Defined.

(** ** Playfair: the mode ["decrypt"] after the mode ["encrypt"] *)

Lemma bind_ret {A : Type} (m : result A) : bind m (fun x => OK x) = m.
Proof. destruct m; reflexivity. Qed.

(** [transform] on two uppercase letters is one step of the loop. *)
Lemma transform_two (self : PlayfairCipher.t) (mode : str) (a b : ascii) :
  is_upper a = true -> is_upper b = true ->
  PlayfairCipher.transform self [a; b] mode
  = PlayfairCipher.pair_step self mode [] a b.
Proof.
  intros Ha Hb. unfold PlayfairCipher.transform.
  rewrite process_text_fixed;
    [| repeat constructor; assumption | reflexivity].
  rewrite transform_loop_pairs. cbn [pairs_loop].
  apply bind_ret.
Qed.

Lemma cell_upper (self : PlayfairCipher.t) (row col : option Z) (c : ascii) :
  Forall (fun x => is_upper x = true)
         (List.concat (PlayfairCipher.key_matrix self)) ->
  PlayfairCipher.cell self row col = OK c -> is_upper c = true.
Proof.
  intros Hall Hc. destruct (cell_present self row col c Hc) as (r & Hr & Hin).
  rewrite Forall_forall in Hall. apply Hall.
  apply in_concat. exists r. split; assumption.
Qed.

Lemma pair_step_rule (self : PlayfairCipher.t) (mode acc : str)
      (r1 k1 r2 k2 : Z) (a b : ascii) :
  NoDup (List.concat (PlayfairCipher.key_matrix self)) ->
  0 <= r1 -> 0 <= k1 -> 0 <= r2 -> 0 <= k2 ->
  PlayfairCipher.cell self (Some r1) (Some k1) = OK a ->
  PlayfairCipher.cell self (Some r2) (Some k2) = OK b ->
  PlayfairCipher.pair_step self mode acc a b
  = if r1 =? r2 then
      x <- PlayfairCipher.cell self (Some r1) (Some ((k1 + 1) mod 5)) ;;
      y <- PlayfairCipher.cell self (Some r2) (Some ((k2 + 1) mod 5)) ;;
      OK (acc ++ [x; y])
    else if k1 =? k2 then
      x <- PlayfairCipher.cell self (Some ((r1 + 1) mod 5)) (Some k1) ;;
      y <- PlayfairCipher.cell self (Some ((r2 + 1) mod 5)) (Some k2) ;;
      OK (acc ++ [x; y])
    else
      x <- PlayfairCipher.cell self (Some r1) (Some k2) ;;
      y <- PlayfairCipher.cell self (Some r2) (Some k1) ;;
      OK (acc ++ [x; y]).
Proof.
  intros Hnd Hr1 Hk1 Hr2 Hk2 Ha Hb.
  rewrite (pair_step_any_mode self mode (lit "encrypt")).
  unfold PlayfairCipher.pair_step.
  rewrite (find_of_cell self r1 k1 a Hnd Hr1 Hk1 Ha).
  rewrite (find_of_cell self r2 k2 b Hnd Hr2 Hk2 Hb).
  cbn [bind PlayfairCipher.pos_eqb].
  change (str_eqb (lit "encrypt") (lit "encrypt")) with true.
  destruct (r1 =? r2); [| destruct (k1 =? k2)];
    cbn [PlayfairCipher.succ_mod5 bind]; reflexivity.
Qed.

Lemma cells_differ (self : PlayfairCipher.t) (r k r' k' : Z) (a a' : ascii) :
  NoDup (List.concat (PlayfairCipher.key_matrix self)) ->
  0 <= r -> 0 <= k -> 0 <= r' -> 0 <= k' ->
  PlayfairCipher.cell self (Some r) (Some k) = OK a ->
  PlayfairCipher.cell self (Some r') (Some k') = OK a' ->
  r <> r' \/ k <> k' -> a' <> a.
Proof.
  intros Hnd Hr Hk Hr' Hk' Ha Ha' Hne Heq. subst a'.
  pose proof (find_of_cell self r k a Hnd Hr Hk Ha) as H1.
  pose proof (find_of_cell self r' k' a Hnd Hr' Hk' Ha') as H2.
  rewrite H1 in H2. injection H2 as -> ->. destruct Hne; congruence.
Qed.

Lemma shift_twice (z : Z) :
  0 <= z < 5 ->
  0 <= (z + 1) mod 5 < 5 /\
  0 <= ((z + 1) mod 5 + 1) mod 5 < 5 /\
  ((z + 1) mod 5 + 1) mod 5 <> z.
Proof.
  intros H.
  assert (Hz : z = 0 \/ z = 1 \/ z = 2 \/ z = 3 \/ z = 4) by lia.
  destruct Hz as [-> | [-> | [-> | [-> | ->]]]]; vm_compute;
    repeat split; discriminate.
Qed.

Lemma shift_injective (x y : Z) :
  0 <= x < 5 -> 0 <= y < 5 -> x <> y -> (x + 1) mod 5 <> (y + 1) mod 5.
Proof.
  intros Hx Hy Hne.
  assert (Hx' : x = 0 \/ x = 1 \/ x = 2 \/ x = 3 \/ x = 4) by lia.
  assert (Hy' : y = 0 \/ y = 1 \/ y = 2 \/ y = 3 \/ y = 4) by lia.
  destruct Hx' as [-> | [-> | [-> | [-> | ->]]]];
    destruct Hy' as [-> | [-> | [-> | [-> | ->]]]];
    vm_compute; solve [discriminate | contradiction].
Qed.

(** X21. The mode ["decrypt"] does not undo the mode ["encrypt"].  On a
    matrix of five rows of five distinct uppercase letters, take the
    letters of two cells as the text: [transform] in mode ["encrypt"]
    followed by [transform] in mode ["decrypt"] returns, and it returns the
    two letters exactly when the cells are in neither the same row nor the
    same column; in the same row or column the result is another pair. *)
Theorem playfair_decrypt_after_encrypt
        (self : PlayfairCipher.t) (r1 k1 r2 k2 : Z) (a b : ascii) :
  matrix_5x5 self ->
  NoDup (List.concat (PlayfairCipher.key_matrix self)) ->
  Forall (fun x => is_upper x = true)
         (List.concat (PlayfairCipher.key_matrix self)) ->
  0 <= r1 < 5 -> 0 <= k1 < 5 -> 0 <= r2 < 5 -> 0 <= k2 < 5 ->
  PlayfairCipher.cell self (Some r1) (Some k1) = OK a ->
  PlayfairCipher.cell self (Some r2) (Some k2) = OK b ->
  exists out back,
    PlayfairCipher.transform self [a; b] (lit "encrypt") = OK out /\
    PlayfairCipher.transform self out (lit "decrypt") = OK back /\
    (r1 = r2 \/ k1 = k2 -> back <> [a; b]) /\
    (r1 <> r2 /\ k1 <> k2 -> back = [a; b]).
Proof.
  intros Hm Hnd Hup Hr1 Hk1 Hr2 Hk2 Ha Hb.
  pose proof (cell_upper self _ _ a Hup Ha) as Hua.
  pose proof (cell_upper self _ _ b Hup Hb) as Hub.
  rewrite (transform_two self _ a b Hua Hub).
  rewrite (pair_step_rule self _ [] r1 k1 r2 k2 a b Hnd
             ltac:(lia) ltac:(lia) ltac:(lia) ltac:(lia) Ha Hb).
  destruct (shift_twice r1 Hr1) as (Hr1a & Hr1b & Hr1c).
  destruct (shift_twice r2 Hr2) as (Hr2a & Hr2b & Hr2c).
  destruct (shift_twice k1 Hk1) as (Hk1a & Hk1b & Hk1c).
  destruct (shift_twice k2 Hk2) as (Hk2a & Hk2b & Hk2c).
  destruct (Z.eqb_spec r1 r2) as [Hr | Hr];
    [| destruct (Z.eqb_spec k1 k2) as [Hk | Hk]].
  - (* same row *)
    destruct (cell_in_range self r1 ((k1 + 1) mod 5) Hm Hr1 Hk1a) as (x & Hx).
    destruct (cell_in_range self r2 ((k2 + 1) mod 5) Hm Hr2 Hk2a) as (y & Hy).
    rewrite Hx. cbn [bind]. rewrite Hy. cbn [bind app].
    exists [x; y].
    rewrite (transform_two self _ x y (cell_upper self _ _ x Hup Hx)
                           (cell_upper self _ _ y Hup Hy)).
    rewrite (pair_step_rule self _ [] r1 ((k1 + 1) mod 5) r2 ((k2 + 1) mod 5)
               x y Hnd ltac:(lia) ltac:(lia) ltac:(lia) ltac:(lia) Hx Hy).
    destruct (Z.eqb_spec r1 r2) as [_ | Hn]; [| contradiction].
    destruct (cell_in_range self r1 (((k1 + 1) mod 5 + 1) mod 5) Hm Hr1 Hk1b)
      as (x' & Hx').
    destruct (cell_in_range self r2 (((k2 + 1) mod 5 + 1) mod 5) Hm Hr2 Hk2b)
      as (y' & Hy').
    rewrite Hx'. cbn [bind]. rewrite Hy'. cbn [bind app].
    exists [x'; y']. split; [reflexivity |]. split; [reflexivity |].
    split; [| intros [Hn _]; contradiction].
    intros _ Heq. injection Heq as Hxa _.
    apply (cells_differ self r1 k1 r1 (((k1 + 1) mod 5 + 1) mod 5) a x' Hnd
             ltac:(lia) ltac:(lia) ltac:(lia) ltac:(lia) Ha Hx');
      [right; congruence | exact Hxa].
  - (* same column, different rows *)
    destruct (cell_in_range self ((r1 + 1) mod 5) k1 Hm Hr1a Hk1) as (x & Hx).
    destruct (cell_in_range self ((r2 + 1) mod 5) k2 Hm Hr2a Hk2) as (y & Hy).
    rewrite Hx. cbn [bind]. rewrite Hy. cbn [bind app].
    exists [x; y].
    rewrite (transform_two self _ x y (cell_upper self _ _ x Hup Hx)
                           (cell_upper self _ _ y Hup Hy)).
    rewrite (pair_step_rule self _ [] ((r1 + 1) mod 5) k1 ((r2 + 1) mod 5) k2
               x y Hnd ltac:(lia) ltac:(lia) ltac:(lia) ltac:(lia) Hx Hy).
    destruct (Z.eqb_spec ((r1 + 1) mod 5) ((r2 + 1) mod 5)) as [He | _];
      [exfalso; exact (shift_injective r1 r2 Hr1 Hr2 Hr He) |].
    destruct (Z.eqb_spec k1 k2) as [_ | Hn]; [| contradiction].
    destruct (cell_in_range self (((r1 + 1) mod 5 + 1) mod 5) k1 Hm Hr1b Hk1)
      as (x' & Hx').
    destruct (cell_in_range self (((r2 + 1) mod 5 + 1) mod 5) k2 Hm Hr2b Hk2)
      as (y' & Hy').
    rewrite Hx'. cbn [bind]. rewrite Hy'. cbn [bind app].
    exists [x'; y']. split; [reflexivity |]. split; [reflexivity |].
    split; [| intros [_ Hn]; contradiction].
    intros _ Heq. injection Heq as Hxa _.
    apply (cells_differ self r1 k1 (((r1 + 1) mod 5 + 1) mod 5) k1 a x' Hnd
             ltac:(lia) ltac:(lia) ltac:(lia) ltac:(lia) Ha Hx');
      [left; congruence | exact Hxa].
  - (* a rectangle *)
    destruct (cell_in_range self r1 k2 Hm Hr1 Hk2) as (x & Hx).
    destruct (cell_in_range self r2 k1 Hm Hr2 Hk1) as (y & Hy).
    rewrite Hx. cbn [bind]. rewrite Hy. cbn [bind app].
    exists [x; y].
    rewrite (transform_two self _ x y (cell_upper self _ _ x Hup Hx)
                           (cell_upper self _ _ y Hup Hy)).
    rewrite (pair_step_rule self _ [] r1 k2 r2 k1 x y Hnd
               ltac:(lia) ltac:(lia) ltac:(lia) ltac:(lia) Hx Hy).
    destruct (Z.eqb_spec r1 r2) as [Hn | _]; [contradiction |].
    destruct (Z.eqb_spec k2 k1) as [Hn | _]; [congruence |].
    rewrite Ha. cbn [bind]. rewrite Hb. cbn [bind app].
    exists [a; b]. split; [reflexivity |]. split; [reflexivity |].
    split; [intros [Hn | Hn]; contradiction | reflexivity].
Qed.

Lemma pf_demo_upper :
  Forall (fun x => is_upper x = true)
         (List.concat (PlayfairCipher.key_matrix pf_demo)).
Proof.
  apply Forall_forall. apply forallb_forall. vm_compute. reflexivity.
Qed.

Lemma playfair_decrypt_after_encrypt_witness :
  PlayfairCipher.cell pf_demo (Some 0) (Some 0) = OK "P"%char /\
  PlayfairCipher.cell pf_demo (Some 0) (Some 1) = OK "L"%char /\
  exists out back,
    PlayfairCipher.transform pf_demo (lit "PL") (lit "encrypt") = OK out /\
    PlayfairCipher.transform pf_demo out (lit "decrypt") = OK back /\
    (0 = 0 \/ 0 = 1 -> back <> lit "PL") /\
    (0 <> 0 /\ 0 <> 1 -> back = lit "PL").
Proof.
  assert (Ha : PlayfairCipher.cell pf_demo (Some 0) (Some 0) = OK "P"%char)
    by (vm_compute; reflexivity).
  assert (Hb : PlayfairCipher.cell pf_demo (Some 0) (Some 1) = OK "L"%char)
    by (vm_compute; reflexivity).
  split; [exact Ha |]. split; [exact Hb |].
  exact (playfair_decrypt_after_encrypt pf_demo 0 0 0 1 "P"%char "L"%char
           pf_demo_5x5 pf_demo_distinct pf_demo_upper
           ltac:(lia) ltac:(lia) ltac:(lia) ltac:(lia) Ha Hb).
Defined.

(** On the demonstration matrix: ["PL"] is encrypted to ["LA"], which is
    "decrypted" to ["AY"]. *)
Example playfair_decrypt_after_encrypt_demo :
  PlayfairCipher.transform pf_demo (lit "PL") (lit "encrypt") = OK (lit "LA") /\
  PlayfairCipher.transform pf_demo (lit "LA") (lit "decrypt") = OK (lit "AY").
Proof. split; vm_compute; reflexivity. Qed.
